(** * Memory-mapped region verification: [shm_rw.c] and [shm_rw_fixed_addr.c]

    A shallow embedding of the two diagnostic programs.  Each program is a
    straight-line [main] that talks to the operating system (open,
    ftruncate, mmap, munmap, close, unlink, access), to a mapped window of
    64-bit words accessed through a [volatile] pointer, and to the
    standard output streams.

    - System calls are answered by an environment record: the program
      cannot choose their results, it can only test them.
    - The mapped window is shared ([MAP_SHARED]) and [volatile]: between
      any two accesses of the program another actor (a second process, a
      device) may change it.  The environment carries this as an
      interference function applied before every access.
    - Everything the program does is logged, in program order, in a trace
      of events, so that call order and output can be stated. *)

From Stdlib Require Import ZArith Lia List Ascii String.
From stdpp Require Import base gmap strings list.

Local Open Scope Z_scope.

(* ===================================================================== *)
(** ** Machine integers and text formatting *)
(* ===================================================================== *)

(** [uint64_t] / [uintptr_t] / [size_t] wrap-around. *)
Definition wrap64 (z : Z) : Z := z mod 2 ^ 64.

(** [(void * ) -1] *)
Definition MAP_FAILED : Z := 2 ^ 64 - 1.

(** C truth value of an [int]. *)
Definition truthy (z : Z) : bool := negb (z =? 0).

Definition LF : string := String (ascii_of_nat 10) EmptyString.

Definition digit_char (upper : bool) (d : Z) : ascii :=
  nth (Z.to_nat d)
      (list_ascii_of_string
         (if upper then "0123456789ABCDEF" else "0123456789abcdef"))
      "?"%char.

(** Digits of [z] in [base], least significant first, at most [fuel] of
    them ([fuel] = 20 covers every 64-bit value in base 10 and 16). *)
Fixpoint digits_rev (fuel : nat) (base : Z) (upper : bool) (z : Z) : list ascii :=
  match fuel with
  | O => []
  | S fuel' =>
      digit_char upper (z mod base) ::
      (if z <? base then [] else digits_rev fuel' base upper (z / base))
  end.

Definition pad_left (width : nat) (c : ascii) (l : list ascii) : list ascii :=
  repeat c (width - length l)%nat ++ l.

(** [%d], [%zu] on a non-negative value. *)
Definition fmt_dec (z : Z) : string :=
  string_of_list_ascii (rev (digits_rev 20 10 true z)).

(** [%lX] *)
Definition fmt_hex (z : Z) : string :=
  string_of_list_ascii (rev (digits_rev 20 16 true z)).

(** [%016llX] *)
Definition fmt_hex16 (z : Z) : string :=
  string_of_list_ascii (pad_left 16 "0"%char (rev (digits_rev 20 16 true z))).

(** [%p] as glibc prints it. *)
Definition fmt_ptr (p : Z) : string :=
  if p =? 0 then "(nil)"
  else "0x" +:+ string_of_list_ascii (rev (digits_rev 20 16 false p)).

(** Reading a printed number back, as a reader of the output does: the
    value of one digit, and of a string of digits in [base], most
    significant digit first. *)
Definition digit_value (c : ascii) : Z :=
  let n := Z.of_nat (nat_of_ascii c) in
  if (48 <=? n) && (n <=? 57) then n - 48
  else if (65 <=? n) && (n <=? 70) then n - 55
  else if (97 <=? n) && (n <=? 102) then n - 87
  else 0.

Definition digits_value (base : Z) (l : list ascii) : Z :=
  fold_left (λ acc c, acc * base + digit_value c) l 0.

Definition number_of (base : Z) (s : string) : Z :=
  digits_value base (list_ascii_of_string s).

(* ===================================================================== *)
(** ** The world the programs run in *)
(* ===================================================================== *)

(** [open] flags as on Linux/x86-64. *)
Definition O_RDWR : Z := 2.
Definition O_CREAT : Z := 64.
Definition O_SYNC : Z := 1052672.

(** Contents of the mapped window: word index (relative to the pointer
    the program uses) to 64-bit value. *)
Definition memory : Type := Z → Z.

Definition upd (m : memory) (i v : Z) : memory :=
  λ j, if j =? i then v else m j.

Definition zero_words (m : memory) (n : Z) : memory :=
  λ j, if (0 <=? j) && (j <? n) then 0 else m j.

Inductive event : Type :=
  | Stdout (text : string)                 (* printf *)
  | Perror (msg : string)                  (* perror: msg, then the errno text *)
  | SysOpen (path : string) (flags ret : Z)
  | SysFtruncate (fd len ret : Z)
  | SysMmap (len fd off ret : Z)
  | SysMunmap (addr len ret : Z)
  | SysClose (fd ret : Z)
  | SysUnlink (path : string) (ret : Z)
  | SysAccess (path : string) (ret : Z)
  | SysConf (ret : Z)
  | Memset (words : Z)
  | Store (index value : Z)
  | Load (index value : Z)
  | Fence.

Record world : Type := World {
  mem : memory;          (* the mapped window *)
  tick : nat;            (* memory accesses made so far *)
  files : gset string;   (* paths at which a directory entry exists *)
  trace : list event     (* what happened, oldest first *)
}.

Definition emit (ev : event) (w : world) : world :=
  World (mem w) (tick w) (files w) (trace w ++ [ev]).

(** What other actors do to the window before the program's access number
    [t]. *)
Definition interference : Type := nat → memory → memory.

Definition quiet : interference := λ _ m, m.

(* ===================================================================== *)
(** ** Programs: state passing with early [return] *)
(* ===================================================================== *)

Inductive outcome (A : Type) : Type :=
  | Next (a : A)          (* fall through to the next statement *)
  | Return (code : Z).    (* [return code;] in [main] *)
Arguments Next {A} a.
Arguments Return {A} code.

Definition prog (A : Type) : Type := world → outcome A * world.

Global Instance prog_ret : MRet prog := λ A a w, (Next a, w).

Global Instance prog_bind : MBind prog := λ A B k m w,
  match m w with
  | (Next a, w') => k a w'
  | (Return c, w') => (Return c, w')
  end.

Definition return_ {A : Type} (code : Z) : prog A := λ w, (Return code, w).

Definition log (ev : event) : prog unit := λ w, (Next tt, emit ev w).

Definition printf (text : string) : prog unit := log (Stdout text).
Definition perror (msg : string) : prog unit := log (Perror msg).

Definition write_mem_fence : prog unit := log Fence.
Definition read_mem_fence : prog unit := log Fence.

(** *** Memory accesses through the volatile pointer *)

Definition store (env : interference) (i v : Z) : prog unit := λ w,
  (Next tt,
   World (upd (env (tick w) (mem w)) i v) (S (tick w)) (files w)
         (trace w ++ [Store i v])).

Definition load (env : interference) (i : Z) : prog Z := λ w,
  let m := env (tick w) (mem w) in
  (Next (m i), World m (S (tick w)) (files w) (trace w ++ [Load i (m i)])).

Definition memset0 (env : interference) (words : Z) : prog unit := λ w,
  (Next tt,
   World (zero_words (env (tick w) (mem w)) words) (S (tick w)) (files w)
         (trace w ++ [Memset words])).

(** *** System calls

    Each takes the answer [ret] the operating system gives at that call
    site.  The file system changes only when the call succeeds.

    [open] follows symbolic links: neither program passes [O_EXCL] or
    [O_NOFOLLOW].  With [O_CREAT] a successful call therefore makes a file
    exist where the name leads: at the name itself when no entry is there
    yet, and otherwise at [leads_to], the place the existing entry leads
    to (the name itself for a regular file, the target for a symbolic
    link; which of the two is for the environment to say).  [unlink]
    removes the entry at the name and never what it leads to. *)

Definition creates (flags : Z) : bool := Z.testbit flags 6.   (* O_CREAT set *)
Global Arguments creates : simpl never.

Definition open_target (path leads_to : string) (fs : gset string) : string :=
  if bool_decide (path ∈ fs) then leads_to else path.
Global Arguments open_target : simpl never.

Definition sys_open (path : string) (flags ret : Z) (leads_to : string)
    : prog Z := λ w,
  let fs := if (0 <=? ret) && creates flags
            then {[open_target path leads_to (files w)]} ∪ files w
            else files w in
  (Next ret, World (mem w) (tick w) fs (trace w ++ [SysOpen path flags ret])).

Definition sys_ftruncate (fd len ret : Z) : prog Z :=
  log (SysFtruncate fd len ret);; mret ret.

(** A successful [mmap] makes the backing resource's words visible. *)
Definition sys_mmap (len fd off ret : Z) (backing : memory) : prog Z := λ w,
  (Next ret,
   World (if ret =? MAP_FAILED then mem w else backing) (tick w) (files w)
         (trace w ++ [SysMmap len fd off ret])).

Definition sys_munmap (addr len ret : Z) : prog Z :=
  log (SysMunmap addr len ret);; mret ret.

Definition sys_close (fd ret : Z) : prog Z :=
  log (SysClose fd ret);; mret ret.

Definition sys_unlink (path : string) (ret : Z) : prog Z := λ w,
  (Next ret,
   World (mem w) (tick w)
         (if ret =? 0 then files w ∖ {[path]} else files w)
         (trace w ++ [SysUnlink path ret])).

(** [access(path, F_OK)] is answered by the file system. *)
Definition sys_access (path : string) : prog Z := λ w,
  let r := if bool_decide (path ∈ files w) then 0 else -1 in
  (Next r, emit (SysAccess path r) w).

Definition sys_sysconf (ret : Z) : prog Z :=
  log (SysConf ret);; mret ret.

(** *** [for] loops with a loop-carried local and [break] *)

Inductive ctl (S : Type) : Type :=
  | Continue (s : S)
  | Break (s : S).
Arguments Continue {S} s.
Arguments Break {S} s.

(** [n] iterations starting at index [i], unless the body breaks. *)
Fixpoint for_loop {S : Type} (n : nat) (i : Z)
    (body : Z → S → prog (ctl S)) (s : S) : prog S :=
  match n with
  | O => mret s
  | Datatypes.S n' =>
      c ← body i s;
      match c with
      | Break s' => mret s'
      | Continue s' => for_loop n' (i + 1) body s'
      end
  end.

(** [for (i = lo; i < hi; ++i)] *)
Definition for_range {S : Type} (lo hi : Z)
    (body : Z → S → prog (ctl S)) (s : S) : prog S :=
  for_loop (Z.to_nat (hi - lo)) lo body s.

(** *** Running a [main] *)

Definition initial (fs : gset string) : world :=
  World (λ _, 0) 0 fs [].

Definition exit_code {A : Type} (r : outcome A * world) : Z :=
  match fst r with
  | Return c => c
  | Next _ => 0
  end.

Definition final {A : Type} (r : outcome A * world) : world := snd r.

(** *** Views of a trace *)

Definition stdout_of (t : list event) : list string :=
  omap (λ ev, match ev with Stdout s => Some s | _ => None end) t.

Definition is_output (ev : event) : bool :=
  match ev with
  | Stdout _ | Perror _ => true
  | _ => false
  end.

Definition output_of (t : list event) : list event :=
  List.filter is_output t.

Definition loads_of (t : list event) : list (Z * Z) :=
  omap (λ ev, match ev with Load i v => Some (i, v) | _ => None end) t.

Definition stores_of (t : list event) : list (Z * Z) :=
  omap (λ ev, match ev with Store i v => Some (i, v) | _ => None end) t.

Definition is_mem_access (ev : event) : bool :=
  match ev with
  | Load _ _ | Store _ _ | Memset _ => true
  | _ => false
  end.

Definition is_syscall (ev : event) : bool :=
  match ev with
  | SysOpen _ _ _ | SysFtruncate _ _ _ | SysMmap _ _ _ _ | SysMunmap _ _ _
  | SysClose _ _ | SysUnlink _ _ | SysAccess _ _ | SysConf _ => true
  | _ => false
  end.

Definition mem_accesses_of (t : list event) : list event :=
  List.filter is_mem_access t.

Definition syscalls_of (t : list event) : list event :=
  List.filter is_syscall t.

(** The test pattern shared by both programs: [0xDEADBEEF00000000ULL | i]. *)
Definition TAG : Z := 0xDEADBEEF00000000.
Definition pattern (i : Z) : Z := Z.lor TAG i.

(* ===================================================================== *)
(** ** Region Mapper: [shm_rw.c] *)
(* ===================================================================== *)

Module ShmRw.

Definition SHARE_SIZE : Z := 1024.
Definition SHARE_FILE : string := "/tmp/simbricks_shm_test".

(** What the operating system and the other users of the file do. *)
Record env : Type := Env {
  open_ret : Z;             (* line 30 *)
  ftruncate_ret : Z;        (* line 38 *)
  mmap_ret : Z;             (* line 46 *)
  munmap_ret : Z;           (* line 97 *)
  close_ret : Z;            (* lines 40, 57, 98 *)
  unlink_ret : Z;           (* lines 41, 58, 99 *)
  file_words : memory;      (* the file's contents once sized *)
  others : interference;
  open_leads_to : string    (* where an entry already at SHARE_FILE leads *)
}.

Definition tag : string := "[shm_rw_syscall] ".

Definition mismatch_line (i expected v : Z) : string :=
  tag +:+ "Mismatch at index " +:+ fmt_dec i +:+ ": expected 0x" +:+
  fmt_hex16 expected +:+ ", got 0x" +:+ fmt_hex16 v +:+ LF.

Definition pass_line : string :=
  tag +:+ "PASS: all " +:+ fmt_dec SHARE_SIZE +:+ " bytes match" +:+ LF.

Definition fail_line : string := tag +:+ "FAIL: data mismatch" +:+ LF.

Section Main.
Variable e : env.

(** Lines 70-72. *)
Definition write_pattern : prog unit :=
  for_range 0 (SHARE_SIZE / 8)
    (λ i _, store (others e) i (pattern i);; mret (Continue tt)) tt.

(** Lines 77-87: yields [ok]. *)
Definition verify : prog Z :=
  for_range 0 (SHARE_SIZE / 8)
    (λ i ok,
       v ← load (others e) i;
       if negb (v =? pattern i) then
         printf (mismatch_line i (pattern i) v);;
         mret (Break 0)
       else mret (Continue ok))
    1.

Definition main : prog unit :=
  printf (tag +:+ "Creating shared memory region using file-based approach..." +:+ LF);;
  fd ← sys_open SHARE_FILE (Z.lor O_CREAT O_RDWR) (open_ret e)
                (open_leads_to e);
  if fd <? 0 then
    perror "open failed";;
    printf (tag +:+ "ERROR: Failed to create shared memory file" +:+ LF);;
    return_ 1
  else
  r ← sys_ftruncate fd SHARE_SIZE (ftruncate_ret e);
  if r <? 0 then
    perror "ftruncate failed";;
    sys_close fd (close_ret e);;
    sys_unlink SHARE_FILE (unlink_ret e);;
    return_ 1
  else
  share ← sys_mmap SHARE_SIZE fd 0 (mmap_ret e) (file_words e);
  if share =? MAP_FAILED then
    perror "mmap failed";;
    sys_close fd (close_ret e);;
    sys_unlink SHARE_FILE (unlink_ret e);;
    return_ 1
  else
  printf (tag +:+ "Successfully mapped shared memory to virtual address " +:+
          fmt_ptr share +:+ LF);;
  printf (tag +:+ "Initializing memory with test pattern..." +:+ LF);;
  memset0 (others e) (SHARE_SIZE / 8);;
  printf (tag +:+ "Writing test pattern..." +:+ LF);;
  write_pattern;;
  write_mem_fence;;
  printf (tag +:+ "Reading back and verifying..." +:+ LF);;
  read_mem_fence;;
  ok ← verify;
  (if truthy ok then printf pass_line else printf fail_line);;
  sys_munmap share SHARE_SIZE (munmap_ret e);;
  sys_close fd (close_ret e);;
  sys_unlink SHARE_FILE (unlink_ret e);;
  return_ (if truthy ok then 0 else 1).

Definition run (fs : gset string) : outcome unit * world :=
  main (initial fs).
End Main.

(** An environment in which every call succeeds, nobody else touches the
    file and no symbolic link is in the way. *)
Definition calm : env :=
  Env 3 0 0x7F0000001000 0 0 0 (λ _, 0) quiet SHARE_FILE.

End ShmRw.

(* ===================================================================== *)
(** ** Fixed-Address Mapper: [shm_rw_fixed_addr.c] *)
(* ===================================================================== *)

Module ShmRwFixedAddr.

Definition FIXED_PHYS_ADDR : Z := 0x80000000.
Definition MAP_SIZE : Z := 4096.
Definition TEST_VALUE : Z := 0xDEADBEEFCAFEBABE.

Definition DEV_MEM : string := "/dev/mem".
Definition SIM_FILE : string := "/tmp/fixed_addr_mem".

Record env : Type := Env {
  devmem_open_ret : Z;        (* line 31 *)
  devmem_open_err : string;   (* strerror(errno), line 33 *)
  page_size : Z;              (* sysconf(_SC_PAGE_SIZE), line 39 *)
  devmem_mmap_ret : Z;        (* line 42 *)
  devmem_mmap_err : string;   (* strerror(errno), line 52 *)
  devmem_close_ret : Z;       (* line 53 *)
  file_open_ret : Z;          (* line 67 *)
  file_ftruncate_ret : Z;     (* line 74 *)
  file_mmap_ret : Z;          (* line 82 *)
  munmap_ret : Z;             (* line 163 *)
  close_ret : Z;              (* lines 76, 94, 164 *)
  unlink_ret : Z;             (* lines 77, 96, 166 *)
  phys_words : memory;        (* physical memory from FIXED_PHYS_ADDR on *)
  file_words : memory;        (* the simulation file from that offset on *)
  others : interference;
  file_open_leads_to : string (* where an entry already at SIM_FILE leads *)
}.

Definition tag : string := "[shm_rw_fixed_addr] ".

Definition single_pass_line : string :=
  tag +:+ "PASS: Read back matches written value" +:+ LF.
Definition single_fail_line : string :=
  tag +:+ "FAIL: Read back does not match written value" +:+ LF.
Definition location_line (i wrote read : Z) : string :=
  tag +:+ "Location [" +:+ fmt_dec i +:+ "]: wrote 0x" +:+ fmt_hex16 wrote +:+
  ", read 0x" +:+ fmt_hex16 read +:+ LF.
Definition offset_fail_line (i : Z) : string :=
  tag +:+ "FAIL at offset " +:+ fmt_dec i +:+ ": mismatch detected" +:+ LF.
Definition sweep_pass_line : string :=
  tag +:+ "PASS: All test locations match" +:+ LF.
Definition sweep_fail_line : string :=
  tag +:+ "FAIL: Some locations had mismatches" +:+ LF.

Section Main.
Variable e : env.

(** Lines 31-60: yields [(fd, mem_ptr)].  [mem_ptr] is uninitialised
    when the device cannot be opened; it is assigned on line 82 before
    it is looked at. *)
Definition try_dev_mem : prog (Z * Z) :=
  fd ← sys_open DEV_MEM (Z.lor O_RDWR O_SYNC) (devmem_open_ret e) DEV_MEM;
  if fd <? 0 then
    printf (tag +:+ "/dev/mem not available (" +:+ devmem_open_err e +:+
            "), using file-based approach" +:+ LF);;
    mret (-1, 0)
  else
    printf (tag +:+ "/dev/mem opened successfully, attempting direct mapping" +:+ LF);;
    ps ← sys_sysconf (page_size e);
    let aligned_addr := wrap64 (Z.land FIXED_PHYS_ADDR (Z.lnot (ps - 1))) in
    let offset := wrap64 (FIXED_PHYS_ADDR - aligned_addr) in
    mem_ptr ← sys_mmap (wrap64 (MAP_SIZE + offset)) fd aligned_addr
                       (devmem_mmap_ret e) (phys_words e);
    if mem_ptr =? MAP_FAILED then
      printf (tag +:+ "/dev/mem mmap failed: " +:+ devmem_mmap_err e +:+
              ", falling back to file-based approach" +:+ LF);;
      sys_close fd (devmem_close_ret e);;
      mret (-1, mem_ptr)
    else
      printf (tag +:+ "Successfully mapped /dev/mem at aligned address 0x" +:+
              fmt_hex aligned_addr +:+ LF);;
      mret (fd, wrap64 (mem_ptr + offset)).

(** Lines 63-90. *)
Definition fallback (fd mem_ptr : Z) : prog (Z * Z) :=
  if fd <? 0 then
    printf (tag +:+ "Using file-based approach" +:+ LF);;
    fd ← sys_open SIM_FILE (Z.lor O_CREAT O_RDWR) (file_open_ret e)
                  (file_open_leads_to e);
    if fd <? 0 then
      perror "Failed to create temporary file";;
      return_ 1
    else
    r ← sys_ftruncate fd (FIXED_PHYS_ADDR + MAP_SIZE) (file_ftruncate_ret e);
    if r <? 0 then
      perror "ftruncate failed";;
      sys_close fd (close_ret e);;
      sys_unlink SIM_FILE (unlink_ret e);;
      return_ 1
    else
    mem_ptr ← sys_mmap MAP_SIZE fd FIXED_PHYS_ADDR (file_mmap_ret e) (file_words e);
    mret (fd, mem_ptr)
  else mret (fd, mem_ptr).

(** Lines 132-148: yields [test_passed]. *)
Definition sweep : prog Z :=
  for_range 0 4
    (λ i test_passed,
       let test_val := pattern i in
       store (others e) i test_val;;
       write_mem_fence;;
       read_mem_fence;;
       read_val ← load (others e) i;
       printf (location_line i test_val read_val);;
       if negb (read_val =? test_val) then
         printf (offset_fail_line i);;
         mret (Continue 0)
       else mret (Continue test_passed))
    1.

(** Lines 101-170: the region is mapped at [mem_ptr]. *)
Definition run_tests (fd mem_ptr : Z) : prog unit :=
  printf (tag +:+ "Successfully mapped address 0x" +:+ fmt_hex FIXED_PHYS_ADDR +:+
          " to virtual address " +:+ fmt_ptr mem_ptr +:+ LF);;
  printf (tag +:+ "Running simple test..." +:+ LF);;
  read_mem_fence;;
  original_value ← load (others e) 0;
  printf (tag +:+ "Original value at 0x" +:+ fmt_hex FIXED_PHYS_ADDR +:+ ": 0x" +:+
          fmt_hex16 original_value +:+ LF);;
  printf (tag +:+ "Writing test value 0x" +:+ fmt_hex16 TEST_VALUE +:+ LF);;
  write_mem_fence;;
  store (others e) 0 TEST_VALUE;;
  write_mem_fence;;
  read_mem_fence;;
  read_value ← load (others e) 0;
  printf (tag +:+ "Read back value: 0x" +:+ fmt_hex16 read_value +:+ LF);;
  (if read_value =? TEST_VALUE then printf single_pass_line
   else printf single_fail_line);;
  printf (tag +:+ "Testing multiple memory locations..." +:+ LF);;
  test_passed ← sweep;
  (if truthy test_passed then printf sweep_pass_line
   else printf sweep_fail_line);;
  printf (tag +:+ "Restoring original value" +:+ LF);;
  write_mem_fence;;
  store (others e) 0 original_value;;
  write_mem_fence;;
  sys_munmap mem_ptr MAP_SIZE (munmap_ret e);;
  sys_close fd (close_ret e);;
  a ← sys_access SIM_FILE;
  (if a =? 0 then sys_unlink SIM_FILE (unlink_ret e);; mret tt else mret tt);;
  printf (tag +:+ "Test completed successfully" +:+ LF);;
  return_ (if truthy test_passed then 0 else 1).

Definition main : prog unit :=
  printf (tag +:+ "Accessing fixed physical address 0x" +:+
          fmt_hex FIXED_PHYS_ADDR +:+ LF);;
  printf (tag +:+ "Note: Address moved to 0x80000000 (2GB) to avoid overlap with main memory" +:+ LF);;
  '(fd, mem_ptr) ← try_dev_mem;
  '(fd, mem_ptr) ← fallback fd mem_ptr;
  if mem_ptr =? MAP_FAILED then
    perror "mmap failed";;
    sys_close fd (close_ret e);;
    (if 0 <=? fd then
       a ← sys_access SIM_FILE;
       if a =? 0 then sys_unlink SIM_FILE (unlink_ret e);; mret tt
       else mret tt
     else mret tt);;
    return_ 1
  else run_tests fd mem_ptr.

Definition run (fs : gset string) : outcome unit * world :=
  main (initial fs).
End Main.

(** Every call succeeds: the privileged mapping is used. *)
Definition privileged : env :=
  Env 3 "" 4096 0x7F0000002000 "" 0 4 0 0x7F0000003000 0 0 0
      (λ _, 0x1122334455667788) (λ _, 0) quiet SIM_FILE.

(** No access to [/dev/mem]: the simulation file is used. *)
Definition unprivileged : env :=
  Env (-1) "Permission denied" 4096 MAP_FAILED "" 0 3 0 0x7F0000003000 0 0 0
      (λ _, 0x1122334455667788) (λ _, 0) quiet SIM_FILE.

End ShmRwFixedAddr.

(* ===================================================================== *)
(** ** The test pattern *)
(* ===================================================================== *)

Lemma TAG_low_clear : Z.land TAG (Z.ones 32) = 0.
Proof. reflexivity. Qed.

(** The index can be read back from the low half of the word. *)
Lemma pattern_low (i : Z) : 0 ≤ i < 2 ^ 32 → Z.land (pattern i) (Z.ones 32) = i.
Proof.
  intros Hi. unfold pattern.
  rewrite Z.land_lor_distr_l, TAG_low_clear, Z.lor_0_l.
  rewrite Z.land_ones by lia. apply Z.mod_small. lia.
Qed.

Lemma TAG_disjoint (i : Z) : 0 ≤ i < 2 ^ 32 → Z.land TAG i = 0.
Proof.
  intros Hi.
  rewrite <- (Z.mod_small i (2 ^ 32)) by lia.
  rewrite <- Z.land_ones by lia.
  rewrite (Z.land_comm i), Z.land_assoc, TAG_low_clear. apply Z.land_0_l.
Qed.

Lemma pattern_add (i : Z) : 0 ≤ i < 2 ^ 32 → pattern i = TAG + i.
Proof.
  intros Hi. unfold pattern.
  pose proof (Z.add_lor_land TAG i) as H. rewrite (TAG_disjoint i Hi) in H. lia.
Qed.

Lemma pattern_range (i : Z) : 0 ≤ i < 2 ^ 32 → 0 ≤ pattern i < 2 ^ 64.
Proof. intros Hi. rewrite (pattern_add i Hi). unfold TAG. lia. Qed.

Lemma pattern_inj (i j : Z) :
  0 ≤ i < 2 ^ 32 → 0 ≤ j < 2 ^ 32 → pattern i = pattern j → i = j.
Proof.
  intros Hi Hj Heq.
  rewrite <- (pattern_low i Hi), <- (pattern_low j Hj). by rewrite Heq.
Qed.

(** C6.  The test pattern [i ↦ 0xDEADBEEF00000000 | i] is injective on the
    tested index ranges: the low 32 bits of the tag are clear, every
    tested index (0..127 in the Region Mapper, 0..3 in the sweep) fits in
    them, and so two distinct indices in range give distinct words. *)
Theorem pattern_injective_on_tested_range :
  Z.land TAG (Z.ones 32) = 0 ∧
  (∀ i : Z, 0 ≤ i < ShmRw.SHARE_SIZE / 8 → 0 ≤ i < 2 ^ 32) ∧
  (∀ i j : Z, 0 ≤ i < ShmRw.SHARE_SIZE / 8 → 0 ≤ j < ShmRw.SHARE_SIZE / 8 →
     i ≠ j → pattern i ≠ pattern j) ∧
  (∀ i j : Z, 0 ≤ i < 4 → 0 ≤ j < 4 → i ≠ j → pattern i ≠ pattern j).
Proof.
  assert (Hsz : ShmRw.SHARE_SIZE / 8 = 128) by reflexivity.
  split; [reflexivity|]. rewrite Hsz.
  split; [lia|].
  split; intros i j Hi Hj Hne Heq; apply Hne; apply pattern_inj; try done; lia.
Qed.

Lemma pattern_injective_on_tested_range_witness :
  pattern 5 ≠ pattern 127 ∧ pattern 0 ≠ pattern 3.
Proof.
  destruct pattern_injective_on_tested_range as (_ & _ & Hregion & Hsweep).
  split.
  - apply Hregion; [vm_compute; split; [discriminate|reflexivity] ..| discriminate].
  - apply Hsweep; [lia .. | discriminate].
Defined.

(* ===================================================================== *)
(** ** Loops of the Region Mapper *)
(* ===================================================================== *)

(** Case analysis on every integer comparison in the goal. *)
Ltac case_zbool :=
  repeat match goal with
    | |- context [?a <=? ?b] => destruct (Z.leb_spec a b)
    | |- context [?a <? ?b] => destruct (Z.ltb_spec a b)
    | |- context [?a =? ?b] => destruct (Z.eqb_spec a b)
    end;
  cbn [andb orb negb]; try lia; try congruence.

Section RegionLoops.
Import ShmRw.
Variable e : env.

Definition write_body : Z → unit → prog (ctl unit) :=
  λ i _, store (others e) i (pattern i);; mret (Continue tt).

Definition verify_body : Z → Z → prog (ctl Z) :=
  λ i ok,
    v ← load (others e) i;
    if negb (v =? pattern i) then
      printf (mismatch_line i (pattern i) v);; mret (Break 0)
    else mret (Continue ok).

Definition stored (i : Z) : event := Store i (pattern i).
Definition matched (i : Z) : event := Load i (pattern i).

Lemma seqZ_S_cons (i : Z) (n : nat) :
  seqZ i (Z.of_nat (S n)) = i :: seqZ (i + 1) (Z.of_nat n).
Proof.
  rewrite seqZ_cons by lia. f_equal. f_equal; lia.
Qed.

Lemma seqZ_first (i k : Z) :
  i < k → seqZ i (k - i) = i :: seqZ (i + 1) (k - (i + 1)).
Proof.
  intros Hik. rewrite seqZ_cons by lia. f_equal. f_equal; lia.
Qed.

Lemma for_loop_S {S : Type} (n : nat) (i : Z) (body : Z → S → prog (ctl S))
    (s : S) (w : world) :
  for_loop (Datatypes.S n) i body s w =
  match body i s w with
  | (Next (Continue s'), w') => for_loop n (i + 1) body s' w'
  | (Next (Break s'), w') => (Next s', w')
  | (Return c, w') => (Return c, w')
  end.
Proof.
  cbn. unfold mbind, prog_bind. by destruct (body i s w) as [[[?|?]|?] ?].
Qed.

Lemma write_body_run (i : Z) (w : world) :
  write_body i tt w =
  (Next (Continue tt),
   World (upd (others e (tick w) (mem w)) i (pattern i)) (S (tick w))
         (files w) (trace w ++ [stored i])).
Proof. reflexivity. Qed.

Lemma verify_body_run (i ok : Z) (w : world) :
  verify_body i ok w =
  let m := others e (tick w) (mem w) in
  let w1 := World m (S (tick w)) (files w) (trace w ++ [Load i (m i)]) in
  if m i =? pattern i then (Next (Continue ok), w1)
  else (Next (Break 0), emit (Stdout (mismatch_line i (pattern i) (m i))) w1).
Proof.
  unfold verify_body, load, mbind, prog_bind. cbn.
  by destruct (others e (tick w) (mem w) i =? pattern i).
Qed.

(** The write sweep never returns early, stores [pattern j] at every
    index in order, and touches nothing but the window. *)
Lemma write_loop_spec (n : nat) : ∀ (i : Z) (w : world),
  ∃ w', for_loop n i write_body tt w = (Next tt, w') ∧
        trace w' = trace w ++ (stored <$> seqZ i (Z.of_nat n)) ∧
        files w' = files w ∧
        tick w' = (tick w + n)%nat.
Proof.
  induction n as [|n IH]; intros i w.
  - exists w. cbn. rewrite app_nil_r. repeat split. lia.
  - rewrite for_loop_S, write_body_run.
    destruct (IH (i + 1)
      (World (upd (others e (tick w) (mem w)) i (pattern i)) (S (tick w))
             (files w) (trace w ++ [stored i]))) as (w' & Hrun & Ht & Hf & Hk).
    exists w'. split; [done|]. cbn in Ht, Hf, Hk.
    rewrite Ht, Hf, Hk, seqZ_S_cons, <- app_assoc. cbn.
    repeat split. lia.
Qed.

(** If nobody interferes while the sweep runs, the window holds the
    pattern on the swept indices afterwards and is unchanged elsewhere. *)
Lemma write_loop_mem (n : nat) : ∀ (i : Z) (w w' : world),
  (∀ t m, (tick w ≤ t < tick w + n)%nat → others e t m = m) →
  for_loop n i write_body tt w = (Next tt, w') →
  ∀ j, mem w' j =
       if (i <=? j) && (j <? i + Z.of_nat n) then pattern j else mem w j.
Proof.
  induction n as [|n IH]; intros i w w' Hq Hrun j.
  - cbn in Hrun. injection Hrun as <-.
    case_zbool.
  - rewrite for_loop_S, write_body_run, (Hq (tick w)) in Hrun by lia.
    eapply IH with (j := j) in Hrun.
    + rewrite Hrun. cbn [mem]. unfold upd.
      case_zbool.
    + intros t m Ht. apply Hq. cbn in Ht. lia.
Qed.

(** The read sweep, whatever the other actors do: it yields a flag,
    and either every word read matched and the flag is untouched, or
    the words before some index [k] matched, word [k] did not, the
    mismatch was printed, the loop stopped there and the flag is 0. *)
Lemma verify_loop_spec (n : nat) : ∀ (i ok0 : Z) (w : world),
  ∃ ok w', for_loop n i verify_body ok0 w = (Next ok, w') ∧
    files w' = files w ∧
    ((ok = ok0 ∧ trace w' = trace w ++ (matched <$> seqZ i (Z.of_nat n))) ∨
     (ok = 0 ∧ ∃ k v, i ≤ k < i + Z.of_nat n ∧ v ≠ pattern k ∧
        trace w' = trace w ++ (matched <$> seqZ i (k - i)) ++
                   [Load k v; Stdout (mismatch_line k (pattern k) v)])).
Proof.
  induction n as [|n IH]; intros i ok0 w.
  - exists ok0, w. cbn. rewrite app_nil_r. split; [done|]. split; [done|]. by left.
  - rewrite for_loop_S, verify_body_run. cbv zeta.
    set (m := others e (tick w) (mem w)).
    destruct (m i =? pattern i) eqn:Hcmp.
    + apply Z.eqb_eq in Hcmp.
      destruct (IH (i + 1) ok0
        (World m (S (tick w)) (files w) (trace w ++ [Load i (m i)])))
        as (ok & w' & Hrun & Hf & Hcases).
      exists ok, w'. split; [done|]. split; [done|].
      cbn [trace] in Hcases. rewrite Hcmp in Hcases.
      destruct Hcases as [[-> Ht] | [-> (k & v & Hk & Hv & Ht)]].
      * left. split; [done|].
        by rewrite Ht, seqZ_S_cons, <- app_assoc.
      * right. split; [done|]. exists k, v. split; [lia|]. split; [done|].
        rewrite Ht, <- app_assoc. f_equal.
        by rewrite (seqZ_first i k) by lia.
    + apply Z.eqb_neq in Hcmp.
      eexists 0, _. split; [done|]. split; [done|]. right. split; [done|].
      exists i, (m i). split; [lia|]. split; [done|].
      cbn. rewrite Z.sub_diag. cbn. by rewrite <- app_assoc.
Qed.

(** The read sweep over a window [m] that stays as it is from the first
    read on: all words match. *)
Lemma verify_loop_all_match (m : memory) (n : nat) : ∀ (i ok0 : Z) (w : world),
  others e (tick w) (mem w) = m →
  (∀ t, (tick w < t)%nat → others e t m = m) →
  (∀ j, i ≤ j < i + Z.of_nat n → m j = pattern j) →
  ∃ w', for_loop n i verify_body ok0 w = (Next ok0, w') ∧
        files w' = files w ∧
        trace w' = trace w ++ (matched <$> seqZ i (Z.of_nat n)).
Proof.
  induction n as [|n IH]; intros i ok0 w Hm Hq Hall.
  - exists w. cbn. by rewrite app_nil_r.
  - rewrite for_loop_S, verify_body_run. cbv zeta.
    rewrite Hm, (Hall i), Z.eqb_refl by lia.
    destruct (IH (i + 1) ok0
      (World m (S (tick w)) (files w) (trace w ++ [Load i (pattern i)])))
      as (w' & Hrun & Hf & Ht); cbn [tick mem].
    + apply Hq. lia.
    + intros t Ht. apply Hq. lia.
    + intros j Hj. apply Hall. lia.
    + exists w'. split; [done|]. split; [done|].
      cbn [trace] in Ht. by rewrite Ht, seqZ_S_cons, <- app_assoc.
Qed.

(** The same, with a first mismatching word at index [k]. *)
Lemma verify_loop_first_mismatch (m : memory) (k : Z) (n : nat) :
  ∀ (i ok0 : Z) (w : world),
  others e (tick w) (mem w) = m →
  (∀ t, (tick w < t)%nat → others e t m = m) →
  i ≤ k < i + Z.of_nat n → m k ≠ pattern k →
  (∀ j, i ≤ j < k → m j = pattern j) →
  ∃ w', for_loop n i verify_body ok0 w = (Next 0, w') ∧
        files w' = files w ∧
        trace w' = trace w ++ (matched <$> seqZ i (k - i)) ++
                   [Load k (m k); Stdout (mismatch_line k (pattern k) (m k))].
Proof.
  induction n as [|n IH]; intros i ok0 w Hm Hq Hk Hbad Hpre; [lia|].
  rewrite for_loop_S, verify_body_run. cbv zeta.
  rewrite Hm. destruct (decide (i = k)) as [->|Hne].
  - apply Z.eqb_neq in Hbad. rewrite Hbad.
    eexists. split; [done|]. cbn. rewrite Z.sub_diag. cbn.
    by rewrite <- app_assoc.
  - rewrite (Hpre i), Z.eqb_refl by lia.
    destruct (IH (i + 1) ok0
      (World m (S (tick w)) (files w) (trace w ++ [Load i (pattern i)])))
      as (w' & Hrun & Hf & Ht); cbn [tick mem]; try done.
    + apply Hq. lia.
    + intros t Ht. apply Hq. lia.
    + lia.
    + intros j Hj. apply Hpre. lia.
    + exists w'. split; [done|]. split; [done|].
      cbn [trace] in Ht. rewrite Ht, <- app_assoc. f_equal.
      by rewrite (seqZ_first i k) by lia.
Qed.

End RegionLoops.

(* ===================================================================== *)
(** ** Views of the traces the loops leave *)
(* ===================================================================== *)

Lemma loads_of_app t1 t2 : loads_of (t1 ++ t2) = loads_of t1 ++ loads_of t2.
Proof. apply omap_app. Qed.

Lemma stores_of_app t1 t2 : stores_of (t1 ++ t2) = stores_of t1 ++ stores_of t2.
Proof. apply omap_app. Qed.

Lemma stdout_of_app t1 t2 : stdout_of (t1 ++ t2) = stdout_of t1 ++ stdout_of t2.
Proof. apply omap_app. Qed.

Lemma output_of_app t1 t2 : output_of (t1 ++ t2) = output_of t1 ++ output_of t2.
Proof. apply List.filter_app. Qed.

Lemma syscalls_of_app t1 t2 :
  syscalls_of (t1 ++ t2) = syscalls_of t1 ++ syscalls_of t2.
Proof. apply List.filter_app. Qed.

Lemma mem_accesses_of_app t1 t2 :
  mem_accesses_of (t1 ++ t2) = mem_accesses_of t1 ++ mem_accesses_of t2.
Proof. apply List.filter_app. Qed.

Definition expected (i : Z) : Z * Z := (i, pattern i).

Lemma stores_of_stored l : stores_of (stored <$> l) = expected <$> l.
Proof. induction l as [|a l IH]; [done|]; cbn; first [exact IH | f_equal; exact IH]. Qed.

Lemma loads_of_stored l : loads_of (stored <$> l) = [].
Proof. induction l as [|a l IH]; [done|]; cbn; first [exact IH | f_equal; exact IH]. Qed.

Lemma stdout_of_stored l : stdout_of (stored <$> l) = [].
Proof. induction l as [|a l IH]; [done|]; cbn; first [exact IH | f_equal; exact IH]. Qed.

Lemma output_of_stored l : output_of (stored <$> l) = [].
Proof. induction l as [|a l IH]; [done|]; cbn; first [exact IH | f_equal; exact IH]. Qed.

Lemma syscalls_of_stored l : syscalls_of (stored <$> l) = [].
Proof. induction l as [|a l IH]; [done|]; cbn; first [exact IH | f_equal; exact IH]. Qed.

Lemma loads_of_matched l : loads_of (matched <$> l) = expected <$> l.
Proof. induction l as [|a l IH]; [done|]; cbn; first [exact IH | f_equal; exact IH]. Qed.

Lemma stores_of_matched l : stores_of (matched <$> l) = [].
Proof. induction l as [|a l IH]; [done|]; cbn; first [exact IH | f_equal; exact IH]. Qed.

Lemma stdout_of_matched l : stdout_of (matched <$> l) = [].
Proof. induction l as [|a l IH]; [done|]; cbn; first [exact IH | f_equal; exact IH]. Qed.

Lemma output_of_matched l : output_of (matched <$> l) = [].
Proof. induction l as [|a l IH]; [done|]; cbn; first [exact IH | f_equal; exact IH]. Qed.

Lemma syscalls_of_matched l : syscalls_of (matched <$> l) = [].
Proof. induction l as [|a l IH]; [done|]; cbn; first [exact IH | f_equal; exact IH]. Qed.

Create Rewrite HintDb views.
#[export] Hint Rewrite
  loads_of_app stores_of_app stdout_of_app output_of_app syscalls_of_app
  mem_accesses_of_app
  stores_of_stored loads_of_stored stdout_of_stored output_of_stored
  syscalls_of_stored
  loads_of_matched stores_of_matched stdout_of_matched output_of_matched
  syscalls_of_matched : views.

Lemma elem_of_expected (l : list Z) (k v : Z) :
  (k, v) ∈ expected <$> l → v = pattern k.
Proof.
  intros (j & [= -> ->] & _)%list_elem_of_fmap. done.
Qed.

(* ===================================================================== *)
(** ** Stepping through a [main] *)
(* ===================================================================== *)

Ltac prog_unfold :=
  unfold mbind, prog_bind, mret, prog_ret, return_, printf, perror, log,
    write_mem_fence, read_mem_fence, sys_open, sys_ftruncate, sys_mmap,
    sys_munmap, sys_close, sys_unlink, sys_access, sys_sysconf,
    store, load, memset0, emit.

Ltac prog_run := repeat (prog_unfold; cbn).

(** The same in one pass, leaving texts and arithmetic as they are
    written; it stops at the first test whose outcome is not known. *)
#[local] Arguments mbind {_ _ _ _} _ _ /.

Ltac prog_step :=
  repeat progress
    (cbn [mbind prog_bind mret prog_ret return_ printf perror log
          write_mem_fence read_mem_fence sys_open sys_ftruncate sys_mmap
          sys_munmap sys_close sys_unlink sys_access sys_sysconf
          store load memset0 emit mem tick files trace fst snd for_loop
          initial Nat.add negb andb truthy Z.eqb];
     unfold mret, prog_ret, emit;
     try match goal with
       | |- prog_bind _ _ _ (prog_bind _ _ _ _) _ = _ => unfold prog_bind at 1
       end).

(** Settle a decidable closed statement by evaluation. *)
Ltac decide_by_compute :=
  match goal with
  | |- ?P => apply (bool_decide_unpack P); vm_compute; exact I
  end.

Ltac trace_eq := rewrite <- ?app_assoc; cbn [app]; rewrite ?app_nil_r; reflexivity.

Lemma ltb_0_false (z : Z) : 0 ≤ z → (z <? 0) = false.
Proof. intros. case_zbool. Qed.

Lemma ltb_0_true (z : Z) : z < 0 → (z <? 0) = true.
Proof. intros. case_zbool. Qed.

Lemma leb_0_true (z : Z) : 0 ≤ z → (0 <=? z) = true.
Proof. intros. case_zbool. Qed.

Lemma creates_rw : creates (Z.lor O_CREAT O_RDWR) = true.
Proof. reflexivity. Qed.

Lemma creates_sync : creates (Z.lor O_RDWR O_SYNC) = false.
Proof. reflexivity. Qed.

Lemma eqb_false (a b : Z) : a ≠ b → (a =? b) = false.
Proof. intros. case_zbool. Qed.

(** After a creating [open] an entry lies at the name, whatever was there
    before. *)
Lemma open_target_present (path leads_to : string) (fs : gset string) :
  path ∈ ({[open_target path leads_to fs]} ∪ fs : gset string).
Proof.
  unfold open_target. rewrite elem_of_union, elem_of_singleton.
  destruct (bool_decide_reflect (path ∈ fs)); tauto.
Qed.

Lemma open_target_fresh (path leads_to : string) (fs : gset string) :
  path ∉ fs → open_target path leads_to fs = path.
Proof. intros H. unfold open_target. by rewrite bool_decide_eq_false_2. Qed.

Lemma open_target_self (path : string) (fs : gset string) :
  open_target path path fs = path.
Proof. unfold open_target. by destruct (bool_decide _). Qed.

(* ===================================================================== *)
(** ** What the printed numbers say *)
(* ===================================================================== *)

Lemma digit_value_char (upper : bool) (d : Z) :
  0 ≤ d < 16 → digit_value (digit_char upper d) = d.
Proof.
  intros Hd.
  assert (Hn : d = Z.of_nat (Z.to_nat d)) by lia.
  assert (Hlt : (Z.to_nat d < 16)%nat) by lia.
  rewrite Hn at 2. unfold digit_char. generalize dependent (Z.to_nat d).
  intros n _ Hlt.
  do 16 (destruct n as [|n]; [by destruct upper|]). lia.
Qed.

Lemma digits_value_snoc (base : Z) (l : list ascii) (c : ascii) :
  digits_value base (l ++ [c]) = digits_value base l * base + digit_value c.
Proof. unfold digits_value. by rewrite fold_left_app. Qed.

Lemma digits_value_rev (fuel : nat) (base : Z) (upper : bool) (z : Z) :
  1 < base ≤ 16 → 0 ≤ z < base ^ Z.of_nat fuel →
  digits_value base (rev (digits_rev fuel base upper z)) = z.
Proof.
  intros Hb. revert z. induction fuel as [|fuel IH]; intros z Hz.
  - cbn in *. unfold digits_value. cbn. lia.
  - cbn [digits_rev rev]. rewrite digits_value_snoc.
    rewrite digit_value_char by (pose proof (Z.mod_pos_bound z base); lia).
    destruct (Z.ltb_spec z base) as [Hlt|Hge].
    + cbn. unfold digits_value. cbn. rewrite Z.mod_small by lia. lia.
    + rewrite IH.
      * pose proof (Z.div_mod z base). lia.
      * split; [apply Z.div_pos; lia|].
        apply Z.div_lt_upper_bound; [lia|].
        rewrite Nat2Z.inj_succ, Z.pow_succ_r in Hz by lia. lia.
Qed.

Lemma digits_value_zeros (base : Z) (n : nat) (l : list ascii) :
  digits_value base (repeat "0"%char n ++ l) = digits_value base l.
Proof.
  unfold digits_value. rewrite fold_left_app. f_equal.
  induction n as [|n IH]; [done|]. cbn. exact IH.
Qed.

Lemma digits_rev_length (fuel : nat) (base : Z) (upper : bool) (n : nat) (z : Z) :
  1 < base → (1 ≤ n)%nat → 0 ≤ z < base ^ Z.of_nat n →
  (length (digits_rev fuel base upper z) ≤ n)%nat.
Proof.
  intros Hb. revert n z. induction fuel as [|fuel IH]; intros n z Hn Hz.
  - cbn. lia.
  - cbn [digits_rev length]. destruct (Z.ltb_spec z base) as [Hlt|Hge].
    + cbn. lia.
    + destruct n as [|[|n]]; [lia| |].
      * cbn in Hz. lia.
      * specialize (IH (S n) (z / base)).
        assert (length (digits_rev fuel base upper (z / base)) ≤ S n)%nat; [|lia].
        apply IH; [lia|]. split; [apply Z.div_pos; lia|].
        apply Z.div_lt_upper_bound; [lia|].
        rewrite (Nat2Z.inj_succ (S n)), Z.pow_succ_r in Hz by lia. lia.
Qed.

Lemma string_length_of_list (l : list ascii) :
  String.length (string_of_list_ascii l) = length l.
Proof. induction l as [|c l IH]; [done|]. cbn. by rewrite IH. Qed.

(** A [%zu] field reads back as the number printed. *)
Lemma number_of_fmt_dec (z : Z) :
  0 ≤ z < 2 ^ 64 → number_of 10 (fmt_dec z) = z.
Proof.
  intros Hz. unfold number_of, fmt_dec.
  rewrite list_ascii_of_string_of_list_ascii.
  apply (digits_value_rev 20 10 true z); lia.
Qed.

(** A [%016llX] field has 16 digits and reads back as the number
    printed. *)
Lemma number_of_fmt_hex16 (z : Z) :
  0 ≤ z < 2 ^ 64 →
  number_of 16 (fmt_hex16 z) = z ∧ String.length (fmt_hex16 z) = 16%nat.
Proof.
  intros Hz. unfold number_of, fmt_hex16. split.
  - rewrite list_ascii_of_string_of_list_ascii. unfold pad_left.
    rewrite digits_value_zeros.
    apply (digits_value_rev 20 16 true z); lia.
  - rewrite string_length_of_list. unfold pad_left.
    rewrite length_app, repeat_length, length_rev.
    pose proof (digits_rev_length 20 16 true 16 z). lia.
Qed.

(* ===================================================================== *)
(** ** Region Mapper: the run as a whole *)
(* ===================================================================== *)

Module ShmRwFacts.
Import ShmRw.

(** The three set-up calls succeeded: the region is mapped. *)
Definition mapped (e : env) : Prop :=
  0 ≤ open_ret e ∧ 0 ≤ ftruncate_ret e ∧ mmap_ret e ≠ MAP_FAILED.

(** What has happened when the write sweep starts. *)
Definition setup_trace (e : env) : list event :=
  [ Stdout (tag +:+ "Creating shared memory region using file-based approach..." +:+ LF);
    SysOpen SHARE_FILE (Z.lor O_CREAT O_RDWR) (open_ret e);
    SysFtruncate (open_ret e) SHARE_SIZE (ftruncate_ret e);
    SysMmap SHARE_SIZE (open_ret e) 0 (mmap_ret e);
    Stdout (tag +:+ "Successfully mapped shared memory to virtual address " +:+
            fmt_ptr (mmap_ret e) +:+ LF);
    Stdout (tag +:+ "Initializing memory with test pattern..." +:+ LF);
    Memset (SHARE_SIZE / 8);
    Stdout (tag +:+ "Writing test pattern..." +:+ LF) ].

Definition world_at_write (e : env) (fs : gset string) : world :=
  World (zero_words (others e 0%nat (file_words e)) (SHARE_SIZE / 8)) 1
        ({[open_target SHARE_FILE (open_leads_to e) fs]} ∪ fs) (setup_trace e).

Definition world_at_verify (w : world) : world :=
  World (mem w) (tick w) (files w)
        (trace w ++ [Fence;
                     Stdout (tag +:+ "Reading back and verifying..." +:+ LF);
                     Fence]).

Definition cleanup_trace (e : env) : list event :=
  [ SysMunmap (mmap_ret e) SHARE_SIZE (munmap_ret e);
    SysClose (open_ret e) (close_ret e);
    SysUnlink SHARE_FILE (unlink_ret e) ].

(** [main] on a mapped region, cut at its two loops. *)
Lemma main_mapped (e : env) (fs : gset string) (w1 w2 : world) (ok : Z) :
  mapped e →
  write_pattern e (world_at_write e fs) = (Next tt, w1) →
  verify e (world_at_verify w1) = (Next ok, w2) →
  run e fs =
  (Return (if truthy ok then 0 else 1),
   World (mem w2) (tick w2)
         (if unlink_ret e =? 0 then files w2 ∖ {[SHARE_FILE]} else files w2)
         (trace w2 ++
          Stdout (if truthy ok then pass_line else fail_line) ::
          cleanup_trace e)).
Proof.
  intros (Ho & Hf & Hm) Hw Hv. unfold run, main.
  pose proof (leb_0_true _ Ho) as Ho'.
  apply ltb_0_false in Ho, Hf. apply eqb_false in Hm.
  repeat progress (prog_unfold; cbn; rewrite ?Ho, ?Ho', ?Hf, ?Hm, ?creates_rw).
  unfold world_at_write, setup_trace in Hw. rewrite Hw.
  unfold world_at_verify in Hv. rewrite <- !app_assoc. cbn.
  rewrite Hv. unfold cleanup_trace.
  destruct (truthy ok); cbn; by rewrite <- !app_assoc.
Qed.

Lemma write_pattern_loop (e : env) :
  write_pattern e = for_loop 128 0 (write_body e) tt.
Proof. reflexivity. Qed.

Lemma verify_loop (e : env) : verify e = for_loop 128 0 (verify_body e) 1.
Proof. reflexivity. Qed.

(** What the read sweep leaves in the trace: every word matched, or the
    words before index [k] matched and word [k] read as [v]. *)
Inductive checks : Type :=
  | AllMatch
  | Mismatch (k v : Z).

Definition ok_of (c : checks) : Z :=
  match c with AllMatch => 1 | Mismatch _ _ => 0 end.

Definition check_trace (c : checks) : list event :=
  match c with
  | AllMatch => matched <$> seqZ 0 128
  | Mismatch k v =>
      (matched <$> seqZ 0 k) ++
      [Load k v; Stdout (mismatch_line k (pattern k) v)]
  end.

Definition checks_wf (c : checks) : Prop :=
  match c with
  | AllMatch => True
  | Mismatch k v => 0 ≤ k < 128 ∧ v ≠ pattern k
  end.

Definition verdict (c : checks) : list event :=
  [Stdout (if truthy (ok_of c) then pass_line else fail_line)].

Definition run_trace (e : env) (c : checks) : list event :=
  setup_trace e ++ (stored <$> seqZ 0 128) ++
  [Fence; Stdout (tag +:+ "Reading back and verifying..." +:+ LF); Fence] ++
  check_trace c ++ verdict c ++ cleanup_trace e.

(** Every run on a mapped region has this shape. *)
Lemma run_mapped (e : env) (fs : gset string) :
  mapped e →
  ∃ (c : checks) (w : world),
    checks_wf c ∧
    run e fs = (Return (if truthy (ok_of c) then 0 else 1), w) ∧
    trace w = run_trace e c ∧
    files w =
      if unlink_ret e =? 0
      then ({[open_target SHARE_FILE (open_leads_to e) fs]} ∪ fs) ∖ {[SHARE_FILE]}
      else {[open_target SHARE_FILE (open_leads_to e) fs]} ∪ fs.
Proof.
  intros Hmapped.
  destruct (write_loop_spec e 128 0 (world_at_write e fs))
    as (w1 & Hw & Hwt & Hwf & _).
  destruct (verify_loop_spec e 128 0 1 (world_at_verify w1))
    as (ok & w2 & Hv & Hvf & Hcases).
  rewrite <- write_pattern_loop in Hw. rewrite <- verify_loop in Hv.
  pose proof (main_mapped e fs w1 w2 ok Hmapped Hw Hv) as Hrun.
  cbn [world_at_verify world_at_write trace files] in *.
  assert (Hshape : ∃ c, checks_wf c ∧ ok = ok_of c ∧
            trace w2 = (setup_trace e ++ (stored <$> seqZ 0 128) ++
              [Fence; Stdout (tag +:+ "Reading back and verifying..." +:+ LF); Fence]) ++
              check_trace c).
  { destruct Hcases as [[-> Ht] | [-> (k & v & Hk & Hbad & Ht)]].
    - exists AllMatch. split; [done|]. split; [done|].
      rewrite Ht, Hwt. by rewrite <- !app_assoc.
    - exists (Mismatch k v). split; [split; [lia|done]|]. split; [done|].
      rewrite Ht, Hwt, Z.sub_0_r. by rewrite <- !app_assoc. }
  destruct Hshape as (c & Hc & -> & Ht).
  exists c. eexists. split; [done|]. split; [exact Hrun|].
  cbn [trace files]. rewrite Ht, Hvf, Hwf. unfold run_trace, verdict.
  split; [|reflexivity]. rewrite <- !app_assoc. reflexivity.
Qed.

Definition reading_line : string :=
  tag +:+ "Reading back and verifying..." +:+ LF.

Lemma loads_of_check_trace (c : checks) :
  loads_of (check_trace c) =
  match c with
  | AllMatch => expected <$> seqZ 0 128
  | Mismatch k v => (expected <$> seqZ 0 k) ++ [(k, v)]
  end.
Proof. destruct c; cbn [check_trace]; autorewrite with views; reflexivity. Qed.

Lemma loads_of_run_trace (e : env) (c : checks) :
  loads_of (run_trace e c) = loads_of (check_trace c).
Proof.
  unfold run_trace. autorewrite with views.
  change (loads_of (setup_trace e)) with (@nil (Z * Z)).
  change (loads_of (verdict c)) with (@nil (Z * Z)).
  change (loads_of (cleanup_trace e)) with (@nil (Z * Z)).
  cbn [app]. by rewrite !app_nil_r.
Qed.

Lemma stores_of_run_trace (e : env) (c : checks) :
  stores_of (run_trace e c) = expected <$> seqZ 0 128.
Proof.
  unfold run_trace. autorewrite with views.
  change (stores_of (setup_trace e)) with (@nil (Z * Z)).
  change (stores_of (verdict c)) with (@nil (Z * Z)).
  change (stores_of (cleanup_trace e)) with (@nil (Z * Z)).
  destruct c; cbn [check_trace]; autorewrite with views;
    cbn [app]; by rewrite !app_nil_r.
Qed.

Lemma stdout_of_run_trace (e : env) (c : checks) :
  stdout_of (run_trace e c) =
  stdout_of (setup_trace e) ++ [reading_line] ++
  match c with
  | AllMatch => [pass_line]
  | Mismatch k v => [mismatch_line k (pattern k) v; fail_line]
  end.
Proof.
  unfold run_trace. autorewrite with views.
  change (stdout_of (cleanup_trace e)) with (@nil string).
  destruct c; cbn [check_trace]; autorewrite with views; reflexivity.
Qed.

Lemma output_of_run_trace (e : env) (c : checks) :
  output_of (run_trace e c) =
  output_of (setup_trace e) ++ [Stdout reading_line] ++
  match c with
  | AllMatch => [Stdout pass_line]
  | Mismatch k v => [Stdout (mismatch_line k (pattern k) v); Stdout fail_line]
  end.
Proof.
  unfold run_trace. autorewrite with views.
  change (output_of (cleanup_trace e)) with (@nil event).
  destruct c; cbn [check_trace]; autorewrite with views; reflexivity.
Qed.

Lemma syscalls_of_run_trace (e : env) (c : checks) :
  syscalls_of (run_trace e c) =
  [ SysOpen SHARE_FILE (Z.lor O_CREAT O_RDWR) (open_ret e);
    SysFtruncate (open_ret e) SHARE_SIZE (ftruncate_ret e);
    SysMmap SHARE_SIZE (open_ret e) 0 (mmap_ret e) ] ++ cleanup_trace e.
Proof.
  unfold run_trace. autorewrite with views.
  destruct c; cbn [check_trace]; autorewrite with views; reflexivity.
Qed.


(** The window [m] that the read sweep sees decides the run, when nobody
    touches it once the sweep has begun. *)
Definition seen_as (m : memory) (c : checks) : Prop :=
  match c with
  | AllMatch => ∀ j, 0 ≤ j < 128 → m j = pattern j
  | Mismatch k v =>
      0 ≤ k < 128 ∧ v = m k ∧ m k ≠ pattern k ∧
      ∀ j, 0 ≤ j < k → m j = pattern j
  end.

Lemma run_static (e : env) (fs : gset string) (w1 : world) (m : memory)
    (c : checks) :
  mapped e →
  write_pattern e (world_at_write e fs) = (Next tt, w1) →
  others e (tick w1) (mem w1) = m →
  (∀ t, (tick w1 < t)%nat → others e t m = m) →
  seen_as m c →
  ∃ w, run e fs = (Return (if truthy (ok_of c) then 0 else 1), w) ∧
       trace w = run_trace e c.
Proof.
  intros Hmapped Hw Hm Hq Hseen.
  destruct (write_loop_spec e 128 0 (world_at_write e fs))
    as (w1' & Hw' & Hwt & _).
  rewrite <- write_pattern_loop, Hw in Hw'. injection Hw' as <-.
  assert (Hv : ∃ w2, verify e (world_at_verify w1) = (Next (ok_of c), w2) ∧
                     trace w2 = trace (world_at_verify w1) ++ check_trace c).
  { rewrite verify_loop. destruct c as [|k v]; cbn [seen_as] in Hseen.
    - destruct (verify_loop_all_match e m 128 0 1 (world_at_verify w1))
        as (w2 & Hrun & _ & Ht); [done | done | intros; apply Hseen; lia |].
      exists w2. split; [exact Hrun | exact Ht].
    - destruct Hseen as (Hk & -> & Hbad & Hpre).
      destruct (verify_loop_first_mismatch e m k 128 0 1 (world_at_verify w1))
        as (w2 & Hrun & _ & Ht); [done | done | lia | done | done |].
      exists w2. split; [exact Hrun|]. rewrite Ht, Z.sub_0_r. reflexivity. }
  destruct Hv as (w2 & Hv & Ht).
  eexists. split; [exact (main_mapped e fs w1 w2 _ Hmapped Hw Hv)|].
  cbn [trace world_at_verify] in *. rewrite Ht, Hwt.
  unfold run_trace, verdict. rewrite <- !app_assoc. reflexivity.
Qed.

(** Nobody else touches the file: the sweep reads back what it wrote. *)
Lemma run_quiet (e : env) (fs : gset string) :
  mapped e → (∀ t m, others e t m = m) →
  ∃ w, run e fs = (Return 0, w) ∧ trace w = run_trace e AllMatch.
Proof.
  intros Hmapped Hq.
  destruct (write_loop_spec e 128 0 (world_at_write e fs))
    as (w1 & Hw & _).
  pose proof (write_loop_mem e 128 0 _ _ (λ t m _, Hq t m) Hw) as Hmem.
  rewrite <- write_pattern_loop in Hw.
  apply (run_static e fs w1 (mem w1) AllMatch Hmapped Hw); [apply Hq | intros; apply Hq |].
  intros j Hj. rewrite Hmem. case_zbool.
Qed.

(** A mutation test: everything as in [e], but the only thing any other
    actor does is to overwrite word [k] with [bad] after the write sweep
    (memory accesses 0..128) and before the first read (access 129). *)
Definition corrupt_once (k bad : Z) : interference :=
  λ t m, if (t =? 129)%nat then upd m k bad else m.

Definition corrupting (e : env) (k bad : Z) : env :=
  Env (open_ret e) (ftruncate_ret e) (mmap_ret e) (munmap_ret e)
      (close_ret e) (unlink_ret e) (file_words e) (corrupt_once k bad)
      (open_leads_to e).

Lemma run_corrupting (e : env) (fs : gset string) (k bad : Z) :
  mapped e → 0 ≤ k < 128 → bad ≠ pattern k →
  ∃ w, run (corrupting e k bad) fs = (Return 1, w) ∧
       trace w = run_trace (corrupting e k bad) (Mismatch k bad).
Proof.
  intros Hmapped Hk Hbad. set (e' := corrupting e k bad).
  destruct (write_loop_spec e' 128 0 (world_at_write e' fs))
    as (w1 & Hw & _ & _ & Htick).
  assert (Hmem : ∀ j, mem w1 j =
            if (0 <=? j) && (j <? 0 + Z.of_nat 128) then pattern j
            else mem (world_at_write e' fs) j).
  { apply (write_loop_mem e' 128 0 _ _); [|exact Hw].
    intros t m Ht. cbn in Ht. cbn. unfold corrupt_once.
    destruct (Nat.eqb_spec t 129); [lia | done]. }
  rewrite <- write_pattern_loop in Hw. cbn in Htick.
  apply (run_static e' fs w1 (upd (mem w1) k bad) (Mismatch k bad));
    [done | done | | |].
  - cbn. unfold corrupt_once. by rewrite Htick.
  - intros t Ht. cbn. unfold corrupt_once.
    destruct (Nat.eqb_spec t 129); [lia | done].
  - cbn. unfold upd. rewrite Z.eqb_refl. split; [done|]. split; [done|].
    split; [done|]. intros j Hj. rewrite Hmem. case_zbool.
Qed.


(** *** The exits before the region is mapped *)

Lemma run_open_failed (e : env) (fs : gset string) :
  open_ret e < 0 →
  run e fs =
  (Return 1,
   World (λ _, 0) 0 fs
     [ Stdout (tag +:+ "Creating shared memory region using file-based approach..." +:+ LF);
       SysOpen SHARE_FILE (Z.lor O_CREAT O_RDWR) (open_ret e);
       Perror "open failed";
       Stdout (tag +:+ "ERROR: Failed to create shared memory file" +:+ LF) ]).
Proof.
  intros Ho. unfold run, main.
  assert (Ho' : (0 <=? open_ret e) = false) by case_zbool.
  apply ltb_0_true in Ho.
  repeat progress (prog_unfold; cbn; rewrite ?Ho, ?Ho').
  reflexivity.
Qed.

Definition unlinked (e : env) (fs : gset string) : gset string :=
  if unlink_ret e =? 0
  then ({[open_target SHARE_FILE (open_leads_to e) fs]} ∪ fs) ∖ {[SHARE_FILE]}
  else {[open_target SHARE_FILE (open_leads_to e) fs]} ∪ fs.

Lemma run_ftruncate_failed (e : env) (fs : gset string) :
  0 ≤ open_ret e → ftruncate_ret e < 0 →
  run e fs =
  (Return 1,
   World (λ _, 0) 0 (unlinked e fs)
     [ Stdout (tag +:+ "Creating shared memory region using file-based approach..." +:+ LF);
       SysOpen SHARE_FILE (Z.lor O_CREAT O_RDWR) (open_ret e);
       SysFtruncate (open_ret e) SHARE_SIZE (ftruncate_ret e);
       Perror "ftruncate failed";
       SysClose (open_ret e) (close_ret e);
       SysUnlink SHARE_FILE (unlink_ret e) ]).
Proof.
  intros Ho Hf. unfold run, main, unlinked.
  pose proof (leb_0_true _ Ho) as Ho'.
  apply ltb_0_false in Ho. apply ltb_0_true in Hf.
  repeat progress (prog_unfold; cbn; rewrite ?Ho, ?Ho', ?Hf, ?creates_rw).
  reflexivity.
Qed.

Lemma run_mmap_failed (e : env) (fs : gset string) :
  0 ≤ open_ret e → 0 ≤ ftruncate_ret e → mmap_ret e = MAP_FAILED →
  run e fs =
  (Return 1,
   World (λ _, 0) 0 (unlinked e fs)
     [ Stdout (tag +:+ "Creating shared memory region using file-based approach..." +:+ LF);
       SysOpen SHARE_FILE (Z.lor O_CREAT O_RDWR) (open_ret e);
       SysFtruncate (open_ret e) SHARE_SIZE (ftruncate_ret e);
       SysMmap SHARE_SIZE (open_ret e) 0 (mmap_ret e);
       Perror "mmap failed";
       SysClose (open_ret e) (close_ret e);
       SysUnlink SHARE_FILE (unlink_ret e) ]).
Proof.
  intros Ho Hf Hm. unfold run, main, unlinked.
  pose proof (leb_0_true _ Ho) as Ho'.
  apply ltb_0_false in Ho, Hf.
  assert (Hm' : (mmap_ret e =? MAP_FAILED) = true) by (rewrite Hm; apply Z.eqb_refl).
  repeat progress (prog_unfold; cbn; rewrite ?Ho, ?Ho', ?Hf, ?Hm', ?creates_rw).
  reflexivity.
Qed.

Lemma unlinked_gone (e : env) (fs : gset string) :
  unlink_ret e = 0 → SHARE_FILE ∉ unlinked e fs.
Proof.
  intros Hu. unfold unlinked. rewrite Hu. cbn.
  rewrite elem_of_difference, elem_of_singleton. tauto.
Qed.

(** What [open] created through a link outlives the [unlink]. *)
Lemma unlinked_keeps_target (e : env) (fs : gset string) :
  SHARE_FILE ∈ fs → open_leads_to e ≠ SHARE_FILE →
  open_leads_to e ∈ unlinked e fs.
Proof.
  intros Hin Hne. unfold unlinked, open_target.
  rewrite bool_decide_eq_true_2 by exact Hin.
  destruct (unlink_ret e =? 0);
    rewrite ?elem_of_difference, ?elem_of_union, ?elem_of_singleton; tauto.
Qed.


Lemma mapped_calm : mapped calm.
Proof. repeat split; cbn; [lia | lia | discriminate]. Qed.

(** *** The claims about the Region Mapper *)



(** C3.  The verification pass reads the words in the ascending index
    order in which they were written, starting at 0.  A word that reads
    back different from its pattern is the last word read: every word
    before it matched; the line printed for it reads
    [Mismatch at index K: expected 0xE, got 0xV], where K is the index in
    decimal and E and V are the expected and the actual value as 16
    hexadecimal digits each, so that index, expected and actual value can
    be read back from the line; FAIL is the last line printed, and the
    exit code is 1.  In particular, when another actor overwrites one
    word [k] with a wrong value between the write and the verify pass,
    the run reads words 0..k, reports index [k] and exits with 1. *)
Theorem region_verify_stops_at_first_mismatch (e : env) (fs : gset string) :
  mapped e →
  let r := run e fs in
  let t := trace (final r) in
  (stores_of t).*1 = seqZ 0 128 ∧
  (∃ n, 0 ≤ n ≤ 128 ∧ (loads_of t).*1 = seqZ 0 n) ∧
  (∀ k v, (k, v) ∈ loads_of t → v ≠ pattern k →
     0 ≤ k < 128 ∧
     loads_of t = (expected <$> seqZ 0 k) ++ [(k, v)] ∧
     (∃ pre, stdout_of t = pre ++
        [ "[shm_rw_syscall] Mismatch at index " +:+ fmt_dec k +:+
          ": expected 0x" +:+ fmt_hex16 (pattern k) +:+
          ", got 0x" +:+ fmt_hex16 v +:+ LF;
          "[shm_rw_syscall] FAIL: data mismatch" +:+ LF ]) ∧
     exit_code r = 1) ∧
  (∀ k v, 0 ≤ k < 128 → 0 ≤ v < 2 ^ 64 →
     number_of 10 (fmt_dec k) = k ∧
     number_of 16 (fmt_hex16 (pattern k)) = pattern k ∧
     String.length (fmt_hex16 (pattern k)) = 16%nat ∧
     number_of 16 (fmt_hex16 v) = v ∧
     String.length (fmt_hex16 v) = 16%nat) ∧
  (∀ k bad, 0 ≤ k < 128 → bad ≠ pattern k →
     let r' := run (corrupting e k bad) fs in
     let t' := trace (final r') in
     loads_of t' = (expected <$> seqZ 0 k) ++ [(k, bad)] ∧
     (∃ pre, stdout_of t' = pre ++
        [ "[shm_rw_syscall] Mismatch at index " +:+ fmt_dec k +:+
          ": expected 0x" +:+ fmt_hex16 (pattern k) +:+
          ", got 0x" +:+ fmt_hex16 bad +:+ LF;
          "[shm_rw_syscall] FAIL: data mismatch" +:+ LF ]) ∧
     exit_code r' = 1).
Proof.
  intros Hmapped r t. subst t r.
  assert (Hfst : ∀ l, (expected <$> l).*1 = l).
  { intros l. rewrite <- list_fmap_compose. apply list_fmap_id. }
  split; [|split; [|split; [|split]]].
  - destruct (run_mapped e fs Hmapped) as (c & w & _ & -> & Ht & _).
    cbn [final snd]. rewrite Ht, stores_of_run_trace. apply Hfst.
  - destruct (run_mapped e fs Hmapped) as (c & w & Hc & -> & Ht & _).
    cbn [final snd]. rewrite Ht, loads_of_run_trace, loads_of_check_trace.
    destruct c as [|k v].
    + exists 128. split; [lia|]. apply Hfst.
    + destruct Hc as [Hk _]. exists (k + 1). split; [lia|].
      rewrite fmap_app, Hfst. cbn [fmap list_fmap fst].
      rewrite seqZ_app by lia. by rewrite Z.add_0_l.
  - destruct (run_mapped e fs Hmapped) as (c & w & Hc & -> & Ht & _).
    cbn [final snd exit_code fst]. rewrite Ht.
    rewrite loads_of_run_trace, loads_of_check_trace, stdout_of_run_trace.
    intros k v Hin Hbad. destruct c as [|k0 v0].
    + destruct Hbad. by apply elem_of_expected in Hin.
    + apply elem_of_app in Hin as [Hin | Hin%list_elem_of_singleton].
      * destruct Hbad. by apply elem_of_expected in Hin.
      * injection Hin as -> ->. destruct Hc as [Hk _].
        split; [exact Hk|]. split; [reflexivity|]. split; [|reflexivity].
        eexists. rewrite app_assoc. reflexivity.
  - intros k v Hk Hv.
    destruct (number_of_fmt_hex16 (pattern k)) as [He1 He2];
      [apply pattern_range; lia|].
    destruct (number_of_fmt_hex16 v Hv) as [Hv1 Hv2].
    split; [apply number_of_fmt_dec; lia|]. tauto.
  - intros k bad Hk Hbad.
    destruct (run_corrupting e fs k bad Hmapped Hk Hbad) as (w & -> & Ht).
    cbn [final snd exit_code fst]. rewrite Ht.
    rewrite loads_of_run_trace, loads_of_check_trace, stdout_of_run_trace.
    split; [reflexivity|]. split; [|reflexivity].
    eexists. rewrite app_assoc. reflexivity.
Qed.

Lemma region_verify_stops_at_first_mismatch_witness :
  mapped calm ∧
  loads_of (trace (final (run (corrupting calm 5 77) ∅))) =
    (expected <$> seqZ 0 5) ++ [(5, 77)] ∧
  (∃ pre, stdout_of (trace (final (run (corrupting calm 5 77) ∅))) = pre ++
     [ "[shm_rw_syscall] Mismatch at index 5: expected 0xDEADBEEF00000005, got 0x000000000000004D" +:+ LF;
       "[shm_rw_syscall] FAIL: data mismatch" +:+ LF ]) ∧
  exit_code (run (corrupting calm 5 77) ∅) = 1.
Proof.
  split; [exact mapped_calm|].
  destruct (region_verify_stops_at_first_mismatch calm ∅ mapped_calm)
    as (_ & _ & _ & _ & Hmut).
  destruct (Hmut 5 77) as (Hloads & Hout & Hexit); [lia | discriminate |].
  split; [exact Hloads|]. split; [exact Hout | exact Hexit].
Defined.


(** C7 as stated fails, in two ways.  The result of [unlink] is never
    looked at: when it fails, the run still exits with 0 and the file is
    still there.  And [open] follows a symbolic link lying at the path:
    the file it creates is then the link's target, which the [unlink] of
    the path, even when it succeeds, leaves behind. *)
Lemma region_backing_file_can_remain :
  let stuck :=
    Env 3 0 0x7F0000001000 0 0 (-1) (λ _, 0) quiet "/tmp/simbricks_shm_test" in
  let linked :=
    Env 3 0 0x7F0000001000 0 0 0 (λ _, 0) quiet "/tmp/elsewhere" in
  let link : gset string := {["/tmp/simbricks_shm_test"]} in
  (exit_code (run stuck ∅) = 0 ∧
   last (syscalls_of (trace (final (run stuck ∅)))) =
     Some (SysUnlink "/tmp/simbricks_shm_test" (-1)) ∧
   ("/tmp/simbricks_shm_test" ∈ files (final (run stuck ∅)))) ∧
  (exit_code (run linked link) = 0 ∧
   last (syscalls_of (trace (final (run linked link)))) =
     Some (SysUnlink "/tmp/simbricks_shm_test" 0) ∧
   ("/tmp/elsewhere" ∉ link) ∧
   ("/tmp/elsewhere" ∈ files (final (run linked link)))).
Proof.
  cbv zeta. split.
  - split; [vm_compute; reflexivity|]. split; [vm_compute; reflexivity|].
    decide_by_compute.
  - split; [vm_compute; reflexivity|]. split; [vm_compute; reflexivity|].
    split; decide_by_compute.
Qed.

(** C7, amended.  On every exit path on which [open] succeeded, the
    system calls of the run are: open, ftruncate, then mmap unless
    ftruncate failed, then munmap if the region was mapped, and finally
    close of the file descriptor and unlink of
    [/tmp/simbricks_shm_test]; the unlink is the last thing the process
    does.  Its result is not checked: no entry is left at that path
    provided the unlink succeeded.  Only the entry at the path is
    removed: when the path held a symbolic link, the link's target, at
    which [open] made the backing file, is still there. *)
Theorem region_cleanup_on_every_exit (e : env) (fs : gset string) :
  0 ≤ open_ret e →
  let r := run e fs in
  let t := trace (final r) in
  syscalls_of t =
    [ SysOpen "/tmp/simbricks_shm_test" (Z.lor O_CREAT O_RDWR) (open_ret e);
      SysFtruncate (open_ret e) SHARE_SIZE (ftruncate_ret e) ] ++
    (if ftruncate_ret e <? 0 then []
     else SysMmap SHARE_SIZE (open_ret e) 0 (mmap_ret e) ::
          (if mmap_ret e =? MAP_FAILED then []
           else [SysMunmap (mmap_ret e) SHARE_SIZE (munmap_ret e)])) ++
    [ SysClose (open_ret e) (close_ret e);
      SysUnlink "/tmp/simbricks_shm_test" (unlink_ret e) ] ∧
  last t = Some (SysUnlink "/tmp/simbricks_shm_test" (unlink_ret e)) ∧
  (unlink_ret e = 0 → "/tmp/simbricks_shm_test" ∉ files (final r)) ∧
  ("/tmp/simbricks_shm_test" ∈ fs →
   open_leads_to e ≠ "/tmp/simbricks_shm_test" →
   open_leads_to e ∈ files (final r)).
Proof.
  intros Ho r t. subst t r.
  destruct (Z.ltb_spec (ftruncate_ret e) 0) as [Hf|Hf].
  { rewrite (run_ftruncate_failed e fs Ho Hf). cbn [final snd trace files].
    split; [reflexivity|]. split; [reflexivity|].
    split; [apply unlinked_gone | apply unlinked_keeps_target]. }
  destruct (Z.eqb_spec (mmap_ret e) MAP_FAILED) as [Hm|Hm].
  { rewrite (run_mmap_failed e fs Ho Hf Hm). cbn [final snd trace files].
    split; [reflexivity|]. split; [reflexivity|].
    split; [apply unlinked_gone | apply unlinked_keeps_target]. }
  destruct (run_mapped e fs (conj Ho (conj Hf Hm))) as (c & w & _ & -> & Ht & Hfs).
  cbn [final snd]. rewrite Ht, Hfs, syscalls_of_run_trace.
  split; [reflexivity|].
  split; [|split; [apply unlinked_gone | apply unlinked_keeps_target]].
  unfold run_trace, cleanup_trace.
  rewrite !app_assoc.
  change [SysMunmap (mmap_ret e) SHARE_SIZE (munmap_ret e);
          SysClose (open_ret e) (close_ret e);
          SysUnlink SHARE_FILE (unlink_ret e)]
    with ([SysMunmap (mmap_ret e) SHARE_SIZE (munmap_ret e);
           SysClose (open_ret e) (close_ret e)] ++
          [SysUnlink SHARE_FILE (unlink_ret e)]).
  rewrite app_assoc. apply last_snoc.
Qed.

Lemma region_cleanup_on_every_exit_witness :
  ("/tmp/simbricks_shm_test" ∉ files (final (run calm ∅))) ∧
  ("/tmp/simbricks_shm_test" ∉
     files (final (run (Env 3 (-1) 0 0 0 0 (λ _, 0) quiet SHARE_FILE)
                       {["/tmp/simbricks_shm_test"]}))) ∧
  ("/tmp/elsewhere" ∈
     files (final (run (Env 3 0 0x7F0000001000 0 0 0 (λ _, 0) quiet
                            "/tmp/elsewhere")
                       {["/tmp/simbricks_shm_test"]}))).
Proof.
  split; [|split].
  - apply (region_cleanup_on_every_exit calm ∅); [cbn; lia | reflexivity].
  - apply (region_cleanup_on_every_exit
             (Env 3 (-1) 0 0 0 0 (λ _, 0) quiet SHARE_FILE));
      [cbn; lia | reflexivity].
  - apply (region_cleanup_on_every_exit
             (Env 3 0 0x7F0000001000 0 0 0 (λ _, 0) quiet "/tmp/elsewhere"));
      [cbn; lia | by apply elem_of_singleton | discriminate].
Defined.

(** The two sweeps depend on the environment only through what the
    other actors do to the window. *)
Lemma write_pattern_ext (e1 e2 : env) :
  others e1 = others e2 → write_pattern e1 = write_pattern e2.
Proof. unfold write_pattern. by intros ->. Qed.

Lemma verify_ext (e1 e2 : env) :
  others e1 = others e2 → verify e1 = verify e2.
Proof. unfold verify. by intros ->. Qed.

(** The same environment, except for what munmap, close and unlink
    answer. *)
Definition with_cleanup (e : env) (mu cl ul : Z) : env :=
  Env (open_ret e) (ftruncate_ret e) (mmap_ret e) mu cl ul
      (file_words e) (others e) (open_leads_to e).

(** C10.  Once the region is mapped, the exit code is 0 exactly when
    every word read back matched, and 1 otherwise.  What munmap, close
    and unlink return does not matter: they are the last three events of
    the run, nothing is printed after them, and a run in which they
    answer differently has the same events before them, the same output
    and the same exit code. *)
Theorem region_cleanup_results_ignored (e : env) (fs : gset string)
    (mu cl ul : Z) :
  mapped e →
  let r := run e fs in
  let r' := run (with_cleanup e mu cl ul) fs in
  (exit_code r = 0 ∧ (∀ i v, (i, v) ∈ loads_of (trace (final r)) → v = pattern i)
   ∨ exit_code r = 1 ∧ (∃ i v, (i, v) ∈ loads_of (trace (final r)) ∧ v ≠ pattern i)) ∧
  (∃ pre,
     trace (final r) = pre ++ cleanup_trace e ∧
     trace (final r') = pre ++ cleanup_trace (with_cleanup e mu cl ul) ∧
     last (output_of pre) =
       Some (Stdout (if exit_code r =? 0 then pass_line else fail_line))) ∧
  output_of (trace (final r')) = output_of (trace (final r)) ∧
  exit_code r' = exit_code r.
Proof.
  intros Hmapped r r'. subst r r'. set (e' := with_cleanup e mu cl ul).
  assert (Hmapped' : mapped e') by exact Hmapped.
  (* both runs go through the same two sweeps *)
  destruct (write_loop_spec e 128 0 (world_at_write e fs)) as (w1 & Hw & _).
  destruct (verify_loop_spec e 128 0 1 (world_at_verify w1))
    as (ok & w2 & Hv & _).
  rewrite <- write_pattern_loop in Hw. rewrite <- verify_loop in Hv.
  pose proof (main_mapped e fs w1 w2 ok Hmapped Hw Hv) as Hrun.
  assert (Hw' : write_pattern e' (world_at_write e' fs) = (Next tt, w1)).
  { rewrite (write_pattern_ext e' e), <- Hw by reflexivity. reflexivity. }
  assert (Hv' : verify e' (world_at_verify w1) = (Next ok, w2)).
  { rewrite (verify_ext e' e), <- Hv by reflexivity. reflexivity. }
  pose proof (main_mapped e' fs w1 w2 ok Hmapped' Hw' Hv') as Hrun'.
  destruct (run_mapped e fs Hmapped) as (c & w & Hc & Hrun2 & Ht & _).
  rewrite Hrun in Hrun2. injection Hrun2 as Hok Hw2.
  rewrite Hrun, Hrun'. cbn [final snd exit_code fst trace].
  split; [|split; [|split]].
  - pose proof (f_equal loads_of Ht) as Hl.
    rewrite loads_of_run_trace, loads_of_check_trace in Hl.
    rewrite <- Hw2 in Hl. cbn [trace] in Hl. rewrite Hl, Hok.
    destruct c as [|k v]; cbn.
    + left. split; [done|]. intros i v. apply elem_of_expected.
    + right. split; [done|]. exists k, v. split; [|apply Hc].
      apply elem_of_app. right. by apply list_elem_of_singleton.
  - exists (trace w2 ++ [Stdout (if truthy ok then pass_line else fail_line)]).
    split; [by rewrite <- app_assoc|]. split; [by rewrite <- app_assoc|].
    rewrite output_of_app. cbn.
    rewrite last_snoc. by destruct (truthy ok).
  - change (Stdout (if truthy ok then pass_line else fail_line) :: cleanup_trace e')
      with ([Stdout (if truthy ok then pass_line else fail_line)] ++ cleanup_trace e').
    change (Stdout (if truthy ok then pass_line else fail_line) :: cleanup_trace e)
      with ([Stdout (if truthy ok then pass_line else fail_line)] ++ cleanup_trace e).
    rewrite !output_of_app. reflexivity.
  - reflexivity.
Qed.

Lemma region_cleanup_results_ignored_witness :
  mapped calm ∧
  exit_code (run (with_cleanup calm (-1) (-1) (-1)) ∅) = exit_code (run calm ∅) ∧
  output_of (trace (final (run (with_cleanup calm (-1) (-1) (-1)) ∅))) =
    output_of (trace (final (run calm ∅))).
Proof.
  split; [exact mapped_calm|].
  destruct (region_cleanup_results_ignored calm ∅ (-1) (-1) (-1) mapped_calm)
    as (_ & _ & Hout & Hexit).
  split; [exact Hexit | exact Hout].
Defined.

End ShmRwFacts.

(* ===================================================================== *)
(** ** Fixed-Address Mapper: the test sequence *)
(* ===================================================================== *)

Module ShmRwFixedAddrFacts.
Import ShmRwFixedAddr.

(** What the eight memory accesses of the sweep see and leave, when the
    sweep starts at access number [t] on the window [m]. *)
Record swept : Type := Swept {
  swept0 : Z;               (* line 139, i = 0 *)
  swept1 : Z;
  swept2 : Z;
  swept3 : Z;
  after_sweep : memory
}.

Definition observe_sweep (env : interference) (t : nat) (m : memory) : swept :=
  let m1 := env (1 + t)%nat (upd (env t m) 0 (pattern 0)) in
  let m2 := env (3 + t)%nat (upd (env (2 + t)%nat m1) 1 (pattern 1)) in
  let m3 := env (5 + t)%nat (upd (env (4 + t)%nat m2) 2 (pattern 2)) in
  let m4 := env (7 + t)%nat (upd (env (6 + t)%nat m3) 3 (pattern 3)) in
  Swept (m1 0) (m2 1) (m3 2) (m4 3) m4.

(** The same for the whole test sequence and its twelve accesses. *)
Record observed : Type := Observed {
  original : Z;             (* line 109 *)
  single : Z;               (* line 121 *)
  in_sweep : swept;
  left_behind : memory      (* after line 159 *)
}.

Definition observe (env : interference) (t : nat) (m : memory) : observed :=
  let m1 := env t m in
  let m3 := env (2 + t)%nat (upd (env (1 + t)%nat m1) 0 TEST_VALUE) in
  let s := observe_sweep env (3 + t)%nat m3 in
  Observed (m1 0) (m3 0) s
           (upd (env (11 + t)%nat (after_sweep s)) 0 (m1 0)).

Definition single_ok (o : observed) : bool := single o =? TEST_VALUE.

Definition sweep_ok (s : swept) : bool :=
  (swept0 s =? pattern 0) && (swept1 s =? pattern 1) &&
  (swept2 s =? pattern 2) && (swept3 s =? pattern 3).

(** One iteration of the sweep, lines 134-147. *)
Definition sweep_step (i r : Z) : list event :=
  [ Store i (pattern i); Fence; Fence; Load i r;
    Stdout (location_line i (pattern i) r) ] ++
  (if r =? pattern i then [] else [Stdout (offset_fail_line i)]).

Definition sweep_trace (s : swept) : list event :=
  sweep_step 0 (swept0 s) ++ sweep_step 1 (swept1 s) ++
  sweep_step 2 (swept2 s) ++ sweep_step 3 (swept3 s).

Definition cleanup_trace (e : env) (fd mem_ptr : Z) (present : bool) : list event :=
  [ SysMunmap mem_ptr MAP_SIZE (munmap_ret e);
    SysClose fd (close_ret e);
    SysAccess SIM_FILE (if present then 0 else -1) ] ++
  (if present then [SysUnlink SIM_FILE (unlink_ret e)] else []).

Definition completed_line : string :=
  tag +:+ "Test completed successfully" +:+ LF.

Definition single_trace (mem_ptr : Z) (o : observed) : list event :=
  [ Stdout (tag +:+ "Successfully mapped address 0x" +:+ fmt_hex FIXED_PHYS_ADDR +:+
            " to virtual address " +:+ fmt_ptr mem_ptr +:+ LF);
    Stdout (tag +:+ "Running simple test..." +:+ LF);
    Fence;
    Load 0 (original o);
    Stdout (tag +:+ "Original value at 0x" +:+ fmt_hex FIXED_PHYS_ADDR +:+ ": 0x" +:+
            fmt_hex16 (original o) +:+ LF);
    Stdout (tag +:+ "Writing test value 0x" +:+ fmt_hex16 TEST_VALUE +:+ LF);
    Fence;
    Store 0 TEST_VALUE;
    Fence; Fence;
    Load 0 (single o);
    Stdout (tag +:+ "Read back value: 0x" +:+ fmt_hex16 (single o) +:+ LF);
    Stdout (if single_ok o then single_pass_line else single_fail_line);
    Stdout (tag +:+ "Testing multiple memory locations..." +:+ LF) ].

Definition restore_trace (o : observed) : list event :=
  [ Stdout (if sweep_ok (in_sweep o) then sweep_pass_line else sweep_fail_line);
    Stdout (tag +:+ "Restoring original value" +:+ LF);
    Fence;
    Store 0 (original o);
    Fence ].

Definition test_trace (e : env) (fd mem_ptr : Z) (o : observed) (present : bool)
    : list event :=
  single_trace mem_ptr o ++ sweep_trace (in_sweep o) ++ restore_trace o ++
  cleanup_trace e fd mem_ptr present ++ [ Stdout completed_line ].

Definition sweep_body (e : env) : Z → Z → prog (ctl Z) :=
  λ i test_passed,
    let test_val := pattern i in
    store (others e) i test_val;;
    write_mem_fence;;
    read_mem_fence;;
    read_val ← load (others e) i;
    printf (location_line i test_val read_val);;
    if negb (read_val =? test_val) then
      printf (offset_fail_line i);;
      mret (Continue 0)
    else mret (Continue test_passed).

Lemma sweep_body_run (e : env) (i test_passed : Z) (w : world) :
  sweep_body e i test_passed w =
  let m := others e (S (tick w)) (upd (others e (tick w) (mem w)) i (pattern i)) in
  (Next (Continue (if m i =? pattern i then test_passed else 0)),
   World m (S (S (tick w))) (files w) (trace w ++ sweep_step i (m i))).
Proof.
  cbv zeta. unfold sweep_body, sweep_step. prog_step.
  destruct (_ =? _); prog_step; trace_eq.
Qed.

Lemma sweep_run (e : env) (w : world) :
  let s := observe_sweep (others e) (tick w) (mem w) in
  sweep e w =
  (Next (if sweep_ok s then 1 else 0),
   World (after_sweep s) (8 + tick w) (files w) (trace w ++ sweep_trace s)).
Proof.
  cbv zeta. unfold sweep, for_range. change (Z.to_nat (4 - 0)) with 4%nat.
  change (for_loop 4 0 ?b 1 w) with (for_loop 4 0 (sweep_body e) 1 w).
  do 4 (rewrite for_loop_S, sweep_body_run; cbv zeta; cbn [mem tick files trace]).
  unfold sweep_ok, sweep_trace, observe_sweep.
  cbn [swept0 swept1 swept2 swept3 after_sweep for_loop Nat.add Z.add Pos.add Pos.succ].
  change (0 + 1 + 1 + 1) with 3. change (0 + 1 + 1) with 2. change (0 + 1) with 1.
  rewrite <- !app_assoc.
  repeat match goal with
    | |- context [?a =? pattern ?i] => generalize (a =? pattern i); intros ?
    end.
  repeat match goal with b : bool |- _ => destruct b end; reflexivity.
Qed.

(** The test sequence from any world in which the region is mapped. *)
Lemma run_tests_spec (e : env) (fd mem_ptr : Z) (w : world) :
  let o := observe (others e) (tick w) (mem w) in
  let present := bool_decide (SIM_FILE ∈ files w) in
  run_tests e fd mem_ptr w =
  (Return (if sweep_ok (in_sweep o) then 0 else 1),
   World (left_behind o) (12 + tick w)
         (if present && (unlink_ret e =? 0) then files w ∖ {[SIM_FILE]}
          else files w)
         (trace w ++ test_trace e fd mem_ptr o present)).
Proof.
  cbv zeta.
  unfold run_tests, test_trace, single_trace, restore_trace, cleanup_trace,
    observe, single_ok.
  cbn [original single in_sweep left_behind Nat.add].
  prog_step.
  destruct (_ =? TEST_VALUE); prog_step;
    unfold prog_bind at 1; rewrite sweep_run; cbv zeta; prog_step;
    destruct (sweep_ok _); prog_step.
  all: destruct (bool_decide _); prog_step.
  all: trace_eq.
Qed.


(** *** Reaching the test sequence *)

Definition aligned_addr (e : env) : Z :=
  wrap64 (Z.land FIXED_PHYS_ADDR (Z.lnot (page_size e - 1))).

Definition offset (e : env) : Z := wrap64 (FIXED_PHYS_ADDR - aligned_addr e).

(** Line 58: the pointer to the target word inside the device mapping. *)
Definition target_ptr (e : env) : Z := wrap64 (devmem_mmap_ret e + offset e).

(** The privileged mapping is established and used. *)
Definition via_device (e : env) : Prop :=
  0 ≤ devmem_open_ret e ∧ devmem_mmap_ret e ≠ MAP_FAILED ∧
  target_ptr e ≠ MAP_FAILED.

(** The device cannot be opened, or cannot be mapped. *)
Definition dev_unavailable (e : env) : Prop :=
  devmem_open_ret e < 0 ∨
  (0 ≤ devmem_open_ret e ∧ devmem_mmap_ret e = MAP_FAILED).

(** Every step of the simulation path succeeds. *)
Definition file_ok (e : env) : Prop :=
  0 ≤ file_open_ret e ∧ 0 ≤ file_ftruncate_ret e ∧
  file_mmap_ret e ≠ MAP_FAILED.

Definition via_file (e : env) : Prop := dev_unavailable e ∧ file_ok e.

(** The test sequence is reached. *)
Definition mapped (e : env) : Prop := via_device e ∨ via_file e.

Definition banner : list event :=
  [ Stdout (tag +:+ "Accessing fixed physical address 0x" +:+
            fmt_hex FIXED_PHYS_ADDR +:+ LF);
    Stdout (tag +:+ "Note: Address moved to 0x80000000 (2GB) to avoid overlap with main memory" +:+ LF) ].

Definition dev_open (e : env) : event :=
  SysOpen "/dev/mem" (Z.lor O_RDWR O_SYNC) (devmem_open_ret e).

Definition dev_mmap (e : env) : event :=
  SysMmap (wrap64 (MAP_SIZE + offset e)) (devmem_open_ret e) (aligned_addr e)
          (devmem_mmap_ret e).

(** Lines 31-60, by case. *)
Definition dev_trace (e : env) : list event :=
  if devmem_open_ret e <? 0 then
    [ dev_open e;
      Stdout (tag +:+ "/dev/mem not available (" +:+ devmem_open_err e +:+
              "), using file-based approach" +:+ LF) ]
  else
    [ dev_open e;
      Stdout (tag +:+ "/dev/mem opened successfully, attempting direct mapping" +:+ LF);
      SysConf (page_size e);
      dev_mmap e ] ++
    (if devmem_mmap_ret e =? MAP_FAILED then
       [ Stdout (tag +:+ "/dev/mem mmap failed: " +:+ devmem_mmap_err e +:+
                 ", falling back to file-based approach" +:+ LF);
         SysClose (devmem_open_ret e) (devmem_close_ret e) ]
     else
       [ Stdout (tag +:+ "Successfully mapped /dev/mem at aligned address 0x" +:+
                 fmt_hex (aligned_addr e) +:+ LF) ]).

Definition file_open (e : env) : event :=
  SysOpen "/tmp/fixed_addr_mem" (Z.lor O_CREAT O_RDWR) (file_open_ret e).

Definition file_ftruncate (e : env) : event :=
  SysFtruncate (file_open_ret e) (FIXED_PHYS_ADDR + MAP_SIZE) (file_ftruncate_ret e).

Definition file_mmap (e : env) : event :=
  SysMmap MAP_SIZE (file_open_ret e) FIXED_PHYS_ADDR (file_mmap_ret e).

Definition using_file : event :=
  Stdout (tag +:+ "Using file-based approach" +:+ LF).

Lemma try_dev_mem_run (e : env) (w : world) :
  try_dev_mem e w =
  (Next (if (devmem_open_ret e <? 0) || (devmem_mmap_ret e =? MAP_FAILED)
         then -1 else devmem_open_ret e,
         if devmem_open_ret e <? 0 then 0
         else if devmem_mmap_ret e =? MAP_FAILED then devmem_mmap_ret e
         else target_ptr e),
   World (if (devmem_open_ret e <? 0) || (devmem_mmap_ret e =? MAP_FAILED)
          then mem w else phys_words e)
         (tick w) (files w) (trace w ++ dev_trace e)).
Proof.
  unfold try_dev_mem, dev_trace, dev_open, dev_mmap, target_ptr, offset,
    aligned_addr, DEV_MEM.
  prog_step. rewrite creates_sync, andb_false_r.
  destruct (devmem_open_ret e <? 0); prog_step; [trace_eq|].
  destruct (devmem_mmap_ret e =? MAP_FAILED); prog_step; trace_eq.
Qed.

(** The privileged path: the tests run on physical memory. *)
Lemma run_via_device (e : env) (fs : gset string) :
  via_device e →
  run e fs =
  run_tests e (devmem_open_ret e) (target_ptr e)
    (World (phys_words e) 0 fs (banner ++ dev_trace e)).
Proof.
  intros (Ho & Hm & Hp). unfold run, main. prog_step.
  unfold prog_bind at 1. rewrite try_dev_mem_run. prog_step.
  rewrite (ltb_0_false _ Ho), (eqb_false _ _ Hm). cbn [orb].
  unfold fallback. rewrite (ltb_0_false _ Ho). prog_step.
  rewrite (eqb_false _ _ Hp). reflexivity.
Qed.

Lemma dev_unavailable_spec (e : env) :
  dev_unavailable e →
  (devmem_open_ret e <? 0) || (devmem_mmap_ret e =? MAP_FAILED) = true.
Proof.
  intros [Ho | [Ho Hm]].
  - by rewrite (ltb_0_true _ Ho).
  - rewrite Hm, Z.eqb_refl. apply orb_true_r.
Qed.

Lemma main_fallback (e : env) (fs : gset string) :
  dev_unavailable e →
  ∃ ptr0,
  run e fs =
  (prog_bind _ _
     (λ '(fd, mem_ptr),
        if mem_ptr =? MAP_FAILED then
          perror "mmap failed";;
          sys_close fd (close_ret e);;
          (if 0 <=? fd then
             a ← sys_access SIM_FILE;
             if a =? 0 then sys_unlink SIM_FILE (unlink_ret e);; mret tt
             else mret tt
           else mret tt);;
          return_ 1
        else run_tests e fd mem_ptr)
     (fallback e (-1) ptr0))
    (World (λ _, 0) 0 fs (banner ++ dev_trace e)).
Proof.
  intros Hdev%dev_unavailable_spec. unfold run, main. prog_step.
  unfold prog_bind at 1. rewrite try_dev_mem_run. rewrite Hdev.
  eexists. reflexivity.
Qed.


(** The simulation path: the tests run on the file. *)
Lemma run_via_file (e : env) (fs : gset string) :
  via_file e →
  run e fs =
  run_tests e (file_open_ret e) (file_mmap_ret e)
    (World (file_words e) 0
       ({[open_target SIM_FILE (file_open_leads_to e) fs]} ∪ fs)
       (banner ++ dev_trace e ++
        [using_file; file_open e; file_ftruncate e; file_mmap e])).
Proof.
  intros (Hdev & Ho & Hf & Hm).
  destruct (main_fallback e fs Hdev) as (ptr0 & ->).
  unfold fallback, using_file, file_open, file_ftruncate, file_mmap, SIM_FILE.
  change (-1 <? 0) with true. prog_step.
  rewrite (leb_0_true _ Ho), (ltb_0_false _ Ho), creates_rw. prog_step.
  rewrite (ltb_0_false _ Hf). prog_step.
  rewrite (eqb_false _ _ Hm).
  f_equal. f_equal. trace_eq.
Qed.

Lemma run_file_open_failed (e : env) (fs : gset string) :
  dev_unavailable e → file_open_ret e < 0 →
  run e fs =
  (Return 1,
   World (λ _, 0) 0 fs
     (banner ++ dev_trace e ++
      [using_file; file_open e; Perror "Failed to create temporary file"])).
Proof.
  intros Hdev Ho.
  destruct (main_fallback e fs Hdev) as (ptr0 & ->).
  unfold fallback, using_file, file_open, SIM_FILE.
  change (-1 <? 0) with true. prog_step.
  assert (Ho' : (0 <=? file_open_ret e) = false) by case_zbool.
  rewrite Ho', (ltb_0_true _ Ho). prog_step.
  f_equal. f_equal. trace_eq.
Qed.

Definition unlinked (e : env) (fs : gset string) : gset string :=
  if unlink_ret e =? 0
  then ({[open_target SIM_FILE (file_open_leads_to e) fs]} ∪ fs) ∖ {[SIM_FILE]}
  else {[open_target SIM_FILE (file_open_leads_to e) fs]} ∪ fs.

Lemma run_file_ftruncate_failed (e : env) (fs : gset string) :
  dev_unavailable e → 0 ≤ file_open_ret e → file_ftruncate_ret e < 0 →
  run e fs =
  (Return 1,
   World (λ _, 0) 0 (unlinked e fs)
     (banner ++ dev_trace e ++
      [using_file; file_open e; file_ftruncate e; Perror "ftruncate failed";
       SysClose (file_open_ret e) (close_ret e);
       SysUnlink "/tmp/fixed_addr_mem" (unlink_ret e)])).
Proof.
  intros Hdev Ho Hf.
  destruct (main_fallback e fs Hdev) as (ptr0 & ->).
  unfold fallback, using_file, file_open, file_ftruncate, unlinked, SIM_FILE.
  change (-1 <? 0) with true. prog_step.
  rewrite (leb_0_true _ Ho), (ltb_0_false _ Ho), creates_rw. prog_step.
  rewrite (ltb_0_true _ Hf). prog_step.
  f_equal. f_equal. trace_eq.
Qed.

Lemma run_file_mmap_failed (e : env) (fs : gset string) :
  dev_unavailable e → 0 ≤ file_open_ret e → 0 ≤ file_ftruncate_ret e →
  file_mmap_ret e = MAP_FAILED →
  run e fs =
  (Return 1,
   World (λ _, 0) 0 (unlinked e fs)
     (banner ++ dev_trace e ++
      [using_file; file_open e; file_ftruncate e; file_mmap e;
       Perror "mmap failed";
       SysClose (file_open_ret e) (close_ret e);
       SysAccess "/tmp/fixed_addr_mem" 0;
       SysUnlink "/tmp/fixed_addr_mem" (unlink_ret e)])).
Proof.
  intros Hdev Ho Hf Hm.
  destruct (main_fallback e fs Hdev) as (ptr0 & ->).
  unfold fallback, using_file, file_open, file_ftruncate, file_mmap, unlinked,
    SIM_FILE.
  change (-1 <? 0) with true. prog_step.
  rewrite (leb_0_true _ Ho), (ltb_0_false _ Ho), creates_rw. prog_step.
  rewrite (ltb_0_false _ Hf). prog_step.
  rewrite Hm, Z.eqb_refl. prog_step.
  rewrite (leb_0_true _ Ho). prog_step.
  rewrite bool_decide_eq_true_2 by apply open_target_present. prog_step.
  f_equal. f_equal. trace_eq.
Qed.


(** *** Every run that reaches the test sequence *)

Definition uses_file (e : env) : bool :=
  (devmem_open_ret e <? 0) || (devmem_mmap_ret e =? MAP_FAILED).

Definition test_fd (e : env) : Z :=
  if uses_file e then file_open_ret e else devmem_open_ret e.

Definition test_ptr (e : env) : Z :=
  if uses_file e then file_mmap_ret e else target_ptr e.

(** The words behind the mapping the tests run on. *)
Definition backing (e : env) : memory :=
  if uses_file e then file_words e else phys_words e.

Definition file_trace (e : env) : list event :=
  [using_file; file_open e; file_ftruncate e; file_mmap e].

Definition setup_trace (e : env) : list event :=
  banner ++ dev_trace e ++ (if uses_file e then file_trace e else []).

Definition files_at_tests (e : env) (fs : gset string) : gset string :=
  if uses_file e
  then {[open_target SIM_FILE (file_open_leads_to e) fs]} ∪ fs
  else fs.

Definition files_at_exit (e : env) (fs : gset string) : gset string :=
  if bool_decide (SIM_FILE ∈ files_at_tests e fs) && (unlink_ret e =? 0)
  then files_at_tests e fs ∖ {[SIM_FILE]}
  else files_at_tests e fs.

Definition seen (e : env) : observed := observe (others e) 0 (backing e).

Lemma run_reaching_tests (e : env) (fs : gset string) :
  mapped e →
  run e fs =
  (Return (if sweep_ok (in_sweep (seen e)) then 0 else 1),
   World (left_behind (seen e)) 12 (files_at_exit e fs)
     (setup_trace e ++
      test_trace e (test_fd e) (test_ptr e) (seen e)
                 (bool_decide (SIM_FILE ∈ files_at_tests e fs)))).
Proof.
  unfold seen, files_at_exit, files_at_tests, setup_trace, backing, test_ptr,
    test_fd, uses_file.
  intros [Hdev | Hfile].
  - rewrite (run_via_device e fs Hdev), run_tests_spec. cbv zeta.
    destruct Hdev as (Ho & Hm & _).
    rewrite (ltb_0_false _ Ho), (eqb_false _ _ Hm). cbn [orb mem tick files trace].
    rewrite app_nil_r. reflexivity.
  - rewrite (run_via_file e fs Hfile), run_tests_spec. cbv zeta.
    destruct Hfile as (Hdev%dev_unavailable_spec & _).
    rewrite Hdev. cbn [mem tick files trace file_trace].
    rewrite <- !app_assoc. reflexivity.
Qed.

(** *** Views of the trace of the test sequence *)

Lemma stores_of_sweep_step (i r : Z) :
  stores_of (sweep_step i r) = [(i, pattern i)].
Proof. unfold sweep_step. by destruct (r =? pattern i). Qed.

Lemma loads_of_sweep_step (i r : Z) : loads_of (sweep_step i r) = [(i, r)].
Proof. unfold sweep_step. by destruct (r =? pattern i). Qed.

Lemma mem_accesses_of_sweep_step (i r : Z) :
  mem_accesses_of (sweep_step i r) = [Store i (pattern i); Load i r].
Proof. unfold sweep_step. by destruct (r =? pattern i). Qed.

Lemma syscalls_of_sweep_step (i r : Z) : syscalls_of (sweep_step i r) = [].
Proof. unfold sweep_step. by destruct (r =? pattern i). Qed.

Lemma dev_trace_no_access (e : env) :
  mem_accesses_of (dev_trace e) = [] ∧ stores_of (dev_trace e) = [] ∧
  loads_of (dev_trace e) = [].
Proof.
  unfold dev_trace.
  by destruct (devmem_open_ret e <? 0), (devmem_mmap_ret e =? MAP_FAILED).
Qed.

Lemma setup_trace_no_access (e : env) :
  mem_accesses_of (setup_trace e) = [] ∧ stores_of (setup_trace e) = [] ∧
  loads_of (setup_trace e) = [].
Proof.
  destruct (dev_trace_no_access e) as (Ha & Hs & Hl).
  unfold setup_trace. autorewrite with views. rewrite Ha, Hs, Hl.
  by destruct (uses_file e).
Qed.

Lemma mem_accesses_of_test_trace e fd ptr (o : observed) (present : bool) :
  mem_accesses_of (test_trace e fd ptr o present) =
  [ Load 0 (original o); Store 0 TEST_VALUE; Load 0 (single o);
    Store 0 (pattern 0); Load 0 (swept0 (in_sweep o));
    Store 1 (pattern 1); Load 1 (swept1 (in_sweep o));
    Store 2 (pattern 2); Load 2 (swept2 (in_sweep o));
    Store 3 (pattern 3); Load 3 (swept3 (in_sweep o));
    Store 0 (original o) ].
Proof.
  unfold test_trace, sweep_trace. autorewrite with views.
  rewrite !mem_accesses_of_sweep_step. by destruct present.
Qed.

Lemma stores_of_test_trace e fd ptr (o : observed) (present : bool) :
  stores_of (test_trace e fd ptr o present) =
  [ (0, TEST_VALUE); (0, pattern 0); (1, pattern 1); (2, pattern 2);
    (3, pattern 3); (0, original o) ].
Proof.
  unfold test_trace, sweep_trace. autorewrite with views.
  rewrite !stores_of_sweep_step. by destruct present.
Qed.

Lemma syscalls_of_test_trace e fd ptr (o : observed) (present : bool) :
  syscalls_of (test_trace e fd ptr o present) = cleanup_trace e fd ptr present.
Proof.
  unfold test_trace, sweep_trace. autorewrite with views.
  rewrite !syscalls_of_sweep_step. by destruct present.
Qed.


(** *** When nobody else touches the window *)

Lemma seen_quiet (e : env) :
  (∀ n m, others e n m = m) →
  original (seen e) = backing e 0 ∧
  single_ok (seen e) = true ∧
  sweep_ok (in_sweep (seen e)) = true ∧
  left_behind (seen e) 0 = backing e 0 ∧
  left_behind (seen e) 1 = pattern 1 ∧
  left_behind (seen e) 2 = pattern 2 ∧
  left_behind (seen e) 3 = pattern 3.
Proof.
  intros Hq. unfold seen, single_ok, sweep_ok, observe, observe_sweep.
  cbn [original single in_sweep left_behind swept0 swept1 swept2 swept3
       after_sweep].
  rewrite !Hq. unfold upd. cbn [Z.eqb Pos.eqb].
  rewrite !Z.eqb_refl. repeat split.
Qed.

(** The exit code is the verdict of the sweep alone. *)
Lemma exit_code_mapped (e : env) (fs : gset string) :
  mapped e →
  exit_code (run e fs) = if sweep_ok (in_sweep (seen e)) then 0 else 1.
Proof. intros Hmapped. by rewrite (run_reaching_tests e fs Hmapped). Qed.

(** *** The fallback, whatever becomes of it *)

Definition file_failed (e : env) : Prop :=
  file_open_ret e < 0 ∨
  (0 ≤ file_open_ret e ∧ file_ftruncate_ret e < 0) ∨
  (0 ≤ file_open_ret e ∧ 0 ≤ file_ftruncate_ret e ∧
   file_mmap_ret e = MAP_FAILED).

Lemma file_ok_or_failed (e : env) : file_ok e ∨ file_failed e.
Proof.
  unfold file_ok, file_failed.
  destruct (Z.ltb_spec (file_open_ret e) 0); [tauto|].
  destruct (Z.ltb_spec (file_ftruncate_ret e) 0); [tauto|].
  destruct (Z.eqb_spec (file_mmap_ret e) MAP_FAILED); tauto.
Qed.

Lemma run_file_failed (e : env) (fs : gset string) :
  dev_unavailable e → file_failed e →
  ∃ rest w,
    run e fs = (Return 1, w) ∧
    trace w = banner ++ dev_trace e ++ [using_file; file_open e] ++ rest ∧
    mem_accesses_of rest = [].
Proof.
  intros Hdev [Ho | [[Ho Hf] | (Ho & Hf & Hm)]].
  - rewrite (run_file_open_failed e fs Hdev Ho). by eexists _, _.
  - rewrite (run_file_ftruncate_failed e fs Hdev Ho Hf). by eexists _, _.
  - rewrite (run_file_mmap_failed e fs Hdev Ho Hf Hm). by eexists _, _.
Qed.

Lemma run_fallback (e : env) (fs : gset string) :
  dev_unavailable e →
  ∃ rest, trace (final (run e fs)) =
          banner ++ dev_trace e ++ [using_file; file_open e] ++ rest.
Proof.
  intros Hdev. destruct (file_ok_or_failed e) as [Hok | Hfailed].
  - rewrite (run_reaching_tests e fs (or_intror (conj Hdev Hok))).
    cbn [final snd trace]. unfold setup_trace, uses_file.
    rewrite (dev_unavailable_spec e Hdev). unfold file_trace.
    eexists. rewrite <- !app_assoc. reflexivity.
  - destruct (run_file_failed e fs Hdev Hfailed) as (rest & w & -> & Ht & _).
    by exists rest.
Qed.


Lemma via_device_privileged : via_device privileged.
Proof. repeat split; vm_compute; congruence. Qed.

Lemma via_file_unprivileged : via_file unprivileged.
Proof.
  split; [left; reflexivity|]. repeat split; vm_compute; congruence.
Qed.

(** *** The claims about the Fixed-Address Mapper *)

(** Bit 4 of the target word is stuck at 0, as on a faulty cell or a
    device register with a read-only bit: whatever is stored there reads
    back with that bit cleared. *)
Definition stuck_bit : interference :=
  λ _ m, upd m 0 (Z.land (m 0) (Z.lnot 16)).

Definition faulty : env :=
  Env 3 "" 4096 0x7F0000002000 "" 0 4 0 0x7F0000003000 0 0 0
      (λ _, 0) (λ _, 0) stuck_bit SIM_FILE.

(** C1, evaluated where it fails.  On a target word whose bit 4 is stuck
    at 0 the privileged mapping is established, [0xDEADBEEFCAFEBABE]
    reads back as [0xDEADBEEFCAFEBAAE], the single-value check prints its
    FAIL line, the four sweep values (bit 4 clear) read back as written,
    and the process exits with code 0: the exit code is the verdict of
    the sweep alone. *)
Theorem fixed_exit_code_ignores_single_check :
  let r := run faulty ∅ in
  let t := trace (final r) in
  via_device faulty ∧
  ((0, 0xDEADBEEFCAFEBAAE) ∈ loads_of t) ∧
  (single_fail_line ∈ stdout_of t) ∧
  (single_pass_line ∉ stdout_of t) ∧
  (sweep_pass_line ∈ stdout_of t) ∧
  exit_code r = 0.
Proof.
  cbv zeta.
  split; [repeat split; vm_compute; congruence|].
  repeat (split; [decide_by_compute|]).
  vm_compute. reflexivity.
Qed.


Lemma syscalls_of_dev_trace_unopened (e : env) :
  devmem_open_ret e < 0 → syscalls_of (dev_trace e) = [dev_open e].
Proof. intros Ho. unfold dev_trace. by rewrite (ltb_0_true _ Ho). Qed.

Lemma syscalls_of_dev_trace_unmapped (e : env) :
  0 ≤ devmem_open_ret e → devmem_mmap_ret e = MAP_FAILED →
  syscalls_of (dev_trace e) =
  [ dev_open e; SysConf (page_size e); dev_mmap e;
    SysClose (devmem_open_ret e) (devmem_close_ret e) ].
Proof.
  intros Ho Hm. unfold dev_trace.
  rewrite (ltb_0_false _ Ho), Hm, Z.eqb_refl. reflexivity.
Qed.

(** C4.  In the Fixed-Address Mapper a device that cannot be opened or
    cannot be mapped is not fatal: the next system call after the failed
    open, or after closing the device handle that could not be mapped,
    is the open of the simulation file; if the simulation path then
    succeeds the test sequence runs and decides the exit code (0 when
    nobody disturbs the window).  A failure on the simulation path
    itself (open, ftruncate or mmap) ends the program with exit code 1
    before any memory access.  In the Region Mapper a failed mmap ends
    the program with exit code 1. *)
Theorem mapping_failure_handling (e : env) (fs : gset string)
    (region : ShmRw.env) (region_fs : gset string) :
  let r := run e fs in
  let t := trace (final r) in
  (devmem_open_ret e < 0 →
     ∃ rest, syscalls_of t = dev_open e :: file_open e :: rest) ∧
  (0 ≤ devmem_open_ret e → devmem_mmap_ret e = MAP_FAILED →
     ∃ rest, syscalls_of t =
       [ dev_open e; SysConf (page_size e); dev_mmap e;
         SysClose (devmem_open_ret e) (devmem_close_ret e);
         file_open e ] ++ rest) ∧
  (dev_unavailable e → file_ok e →
     ((0, TEST_VALUE) ∈ stores_of t) ∧
     exit_code r = (if sweep_ok (in_sweep (seen e)) then 0 else 1) ∧
     ((∀ n m, others e n m = m) → exit_code r = 0)) ∧
  (dev_unavailable e → file_failed e →
     exit_code r = 1 ∧ mem_accesses_of t = []) ∧
  (0 ≤ ShmRw.open_ret region → 0 ≤ ShmRw.ftruncate_ret region →
     ShmRw.mmap_ret region = MAP_FAILED →
     exit_code (ShmRw.run region region_fs) = 1).
Proof.
  cbv zeta. split; [|split; [|split; [|split]]].
  - intros Ho. destruct (run_fallback e fs (or_introl Ho)) as (rest & ->).
    exists (syscalls_of rest). autorewrite with views.
    by rewrite (syscalls_of_dev_trace_unopened e Ho).
  - intros Ho Hm.
    destruct (run_fallback e fs (or_intror (conj Ho Hm))) as (rest & ->).
    exists (syscalls_of rest). autorewrite with views.
    by rewrite (syscalls_of_dev_trace_unmapped e Ho Hm).
  - intros Hdev Hok. pose proof (or_intror (conj Hdev Hok) : mapped e) as Hmapped.
    rewrite (exit_code_mapped e fs Hmapped), (run_reaching_tests e fs Hmapped).
    cbn [final snd trace]. split; [|split; [done|]].
    + rewrite stores_of_app, stores_of_test_trace.
      apply elem_of_app. right. by left.
    + intros Hq. by destruct (seen_quiet e Hq) as (_ & _ & -> & _).
  - intros Hdev Hfailed.
    destruct (run_file_failed e fs Hdev Hfailed) as (rest & w & -> & Ht & Hrest).
    cbn [final snd exit_code fst]. split; [done|].
    rewrite Ht. autorewrite with views.
    destruct (dev_trace_no_access e) as (-> & _). by rewrite Hrest.
  - intros Ho Hf Hm. by rewrite (ShmRwFacts.run_mmap_failed region region_fs Ho Hf Hm).
Qed.

(** Neither the device nor the simulation file can be mapped. *)
Definition unmappable : env :=
  Env (-1) "" 4096 0 "" 0 3 0 MAP_FAILED 0 0 0 (λ _, 0) (λ _, 0) quiet
      SIM_FILE.

Definition unmappable_region : ShmRw.env :=
  ShmRw.Env 3 0 MAP_FAILED 0 0 0 (λ _, 0) quiet ShmRw.SHARE_FILE.

Lemma mapping_failure_handling_witness :
  exit_code (run unprivileged ∅) = 0 ∧
  exit_code (run unmappable ∅) = 1 ∧
  exit_code (ShmRw.run unmappable_region ∅) = 1.
Proof.
  split; [|split].
  - destruct (mapping_failure_handling unprivileged ∅ ShmRw.calm ∅)
      as (_ & _ & Hrecover & _).
    destruct via_file_unprivileged as [Hdev Hok].
    apply (Hrecover Hdev Hok). reflexivity.
  - destruct (mapping_failure_handling unmappable ∅ ShmRw.calm ∅)
      as (_ & _ & _ & Hfatal & _).
    apply Hfatal.
    + left. reflexivity.
    + right. right. repeat split; cbn; lia.
  - destruct (mapping_failure_handling unprivileged ∅ unmappable_region ∅)
      as (_ & _ & _ & _ & Hregion).
    apply Hregion; cbn; [lia | lia | reflexivity].
Defined.

(** C5.  Whenever the test sequence is reached, its first memory access
    is a read of the target word (offset 0), and its last memory access,
    after the single-value check and the sweep whatever they gave, is a
    store of the value read then to the target word; the target word
    holds that value when the program exits; and the value read is the
    content of the mapped resource when nobody changes it before the
    program looks. *)
Theorem fixed_restores_original_value (e : env) (fs : gset string) :
  mapped e →
  let r := run e fs in
  let t := trace (final r) in
  ∃ v0 v r0 r1 r2 r3,
    mem_accesses_of t =
      [ Load 0 v0; Store 0 TEST_VALUE; Load 0 v;
        Store 0 (pattern 0); Load 0 r0; Store 1 (pattern 1); Load 1 r1;
        Store 2 (pattern 2); Load 2 r2; Store 3 (pattern 3); Load 3 r3;
        Store 0 v0 ] ∧
    mem (final r) 0 = v0 ∧
    ((∀ m, others e 0%nat m = m) → v0 = backing e 0).
Proof.
  intros Hmapped. cbv zeta. rewrite (run_reaching_tests e fs Hmapped).
  cbn [final snd trace mem].
  exists (original (seen e)), (single (seen e)),
    (swept0 (in_sweep (seen e))), (swept1 (in_sweep (seen e))),
    (swept2 (in_sweep (seen e))), (swept3 (in_sweep (seen e))).
  split; [|split].
  - rewrite mem_accesses_of_app, mem_accesses_of_test_trace.
    by destruct (setup_trace_no_access e) as (-> & _).
  - unfold seen, observe. cbn [left_behind original]. unfold upd at 1.
    reflexivity.
  - intros Hq. unfold seen, observe. cbn [original]. by rewrite Hq.
Qed.

Lemma fixed_restores_original_value_witness :
  mem (final (run privileged ∅)) 0 = 0x1122334455667788.
Proof.
  destruct (fixed_restores_original_value privileged ∅
              (or_introl via_device_privileged))
    as (v0 & v & r0 & r1 & r2 & r3 & _ & -> & Hv0).
  apply Hv0. reflexivity.
Defined.

(** C9.  Whenever the test sequence is reached, the stores of the run
    are the test value to offset 0, the four sweep values to offsets 0,
    1, 2, 3, and one last store, of the value first read, to offset 0:
    nothing is written back to offsets 1, 2 and 3.  When nobody else
    touches the window, those three words hold [0xDEADBEEF00000001],
    [0xDEADBEEF00000002] and [0xDEADBEEF00000003] at exit, and the
    target word holds what it held before. *)
Theorem fixed_restore_leaves_sweep_values (e : env) (fs : gset string) :
  mapped e →
  let r := run e fs in
  let t := trace (final r) in
  (∃ v0, loads_of t !! 0%nat = Some (0, v0) ∧
     stores_of t =
       [ (0, TEST_VALUE); (0, pattern 0); (1, pattern 1); (2, pattern 2);
         (3, pattern 3); (0, v0) ]) ∧
  ((∀ n m, others e n m = m) →
     mem (final r) 0 = backing e 0 ∧
     mem (final r) 1 = 0xDEADBEEF00000001 ∧
     mem (final r) 2 = 0xDEADBEEF00000002 ∧
     mem (final r) 3 = 0xDEADBEEF00000003).
Proof.
  intros Hmapped. cbv zeta. rewrite (run_reaching_tests e fs Hmapped).
  cbn [final snd trace mem]. split.
  - exists (original (seen e)).
    rewrite loads_of_app, stores_of_app, stores_of_test_trace.
    destruct (setup_trace_no_access e) as (_ & -> & ->). split; [|done].
    unfold test_trace, single_trace. by autorewrite with views.
  - intros Hq.
    by destruct (seen_quiet e Hq) as (_ & _ & _ & -> & -> & -> & ->).
Qed.

Lemma fixed_restore_leaves_sweep_values_witness :
  mem (final (run privileged ∅)) 1 = 0xDEADBEEF00000001 ∧
  phys_words privileged 1 = 0x1122334455667788.
Proof.
  split; [|reflexivity].
  destruct (fixed_restore_leaves_sweep_values privileged ∅
              (or_introl via_device_privileged)) as (_ & Hquiet).
  apply Hquiet. reflexivity.
Defined.


(** *** Which files a run opens and unlinks *)

Definition opens (path : string) (t : list event) : bool :=
  existsb (λ ev, match ev with
                 | SysOpen q _ _ => String.eqb q path
                 | _ => false
                 end) t.

Definition unlinks (path : string) (t : list event) : bool :=
  existsb (λ ev, match ev with
                 | SysUnlink q _ => String.eqb q path
                 | _ => false
                 end) t.

(** [access] found a file at [path]. *)
Definition finds (path : string) (t : list event) : bool :=
  existsb (λ ev, match ev with
                 | SysAccess q r => String.eqb q path && (r =? 0)
                 | _ => false
                 end) t.

Lemma finds_app path t1 t2 :
  finds path (t1 ++ t2) = finds path t1 || finds path t2.
Proof. apply existsb_app. Qed.

Lemma opens_app path t1 t2 :
  opens path (t1 ++ t2) = opens path t1 || opens path t2.
Proof. apply existsb_app. Qed.

Lemma unlinks_app path t1 t2 :
  unlinks path (t1 ++ t2) = unlinks path t1 || unlinks path t2.
Proof. apply existsb_app. Qed.

Lemma sweep_step_no_file (path : string) (i r : Z) :
  opens path (sweep_step i r) = false ∧ unlinks path (sweep_step i r) = false ∧
  finds path (sweep_step i r) = false.
Proof. unfold sweep_step. by destruct (r =? pattern i). Qed.

Lemma dev_trace_no_sim_file (e : env) :
  opens SIM_FILE (dev_trace e) = false ∧ unlinks SIM_FILE (dev_trace e) = false ∧
  finds SIM_FILE (dev_trace e) = false.
Proof.
  unfold dev_trace.
  by destruct (devmem_open_ret e <? 0), (devmem_mmap_ret e =? MAP_FAILED).
Qed.

Lemma setup_trace_sim_file (e : env) :
  opens SIM_FILE (setup_trace e) = uses_file e ∧
  unlinks SIM_FILE (setup_trace e) = false ∧
  finds SIM_FILE (setup_trace e) = false.
Proof.
  destruct (dev_trace_no_sim_file e) as (Ho & Hu & Hf).
  unfold setup_trace. rewrite !opens_app, !unlinks_app, !finds_app, Ho, Hu, Hf.
  by destruct (uses_file e).
Qed.

Lemma test_trace_sim_file e fd ptr (o : observed) (present : bool) :
  opens SIM_FILE (test_trace e fd ptr o present) = false ∧
  unlinks SIM_FILE (test_trace e fd ptr o present) = present ∧
  finds SIM_FILE (test_trace e fd ptr o present) = present.
Proof.
  unfold test_trace, sweep_trace. rewrite !opens_app, !unlinks_app, !finds_app.
  repeat match goal with
    | |- context [sweep_step ?i ?r] =>
        destruct (sweep_step_no_file SIM_FILE i r) as (-> & -> & ->)
    end.
  by destruct present.
Qed.

Lemma uses_file_spec (e : env) : mapped e → uses_file e = true ↔ via_file e.
Proof.
  unfold uses_file. intros [(Ho & Hm & Hp) | Hfile].
  - rewrite (ltb_0_false _ Ho), (eqb_false _ _ Hm). cbn. split; [done|].
    intros ([Ho' | [_ Hm']] & _); [lia | done].
  - split; [done|]. intros _. apply dev_unavailable_spec, Hfile.
Qed.




End ShmRwFixedAddrFacts.

(* ===================================================================== *)
(** ** Further properties: notions shared by both programs *)
(* ===================================================================== *)

Definition stderr_of (t : list event) : list string :=
  omap (λ ev, match ev with Perror s => Some s | _ => None end) t.

Lemma stderr_of_app t1 t2 : stderr_of (t1 ++ t2) = stderr_of t1 ++ stderr_of t2.
Proof. apply omap_app. Qed.

Lemma stderr_of_stored l : stderr_of (stored <$> l) = [].
Proof. induction l as [|a l IH]; [done|]; exact IH. Qed.

Lemma stderr_of_matched l : stderr_of (matched <$> l) = [].
Proof. induction l as [|a l IH]; [done|]; exact IH. Qed.

Lemma mem_accesses_of_stored l : mem_accesses_of (stored <$> l) = stored <$> l.
Proof. induction l as [|a l IH]; [done|]. cbn. f_equal. exact IH. Qed.

Lemma mem_accesses_of_matched l : mem_accesses_of (matched <$> l) = matched <$> l.
Proof. induction l as [|a l IH]; [done|]. cbn. f_equal. exact IH. Qed.

(** A memory access stays inside a mapping of [size] bytes: the 8-byte
    word at index [i] ends at byte [8 * (i + 1)]. *)
Definition in_window (size : Z) (ev : event) : Prop :=
  match ev with
  | Load i _ | Store i _ => 0 ≤ i ∧ 8 * (i + 1) ≤ size
  | Memset words => 0 ≤ words ∧ 8 * words ≤ size
  | _ => True
  end.

(** How a run uses file descriptors. *)
Inductive fd_state : Type :=
  | NoneOpen
  | Holding (fd : Z)
  | Misused.

Definition fd_step (s : fd_state) (ev : event) : fd_state :=
  match s, ev with
  | Misused, _ => Misused
  | NoneOpen, SysOpen _ _ ret => if ret <? 0 then NoneOpen else Holding ret
  | Holding _, SysOpen _ _ _ => Misused
  | Holding fd, SysClose fd' _ => if fd' =? fd then NoneOpen else Misused
  | NoneOpen, SysClose _ _ => Misused
  | Holding fd, SysFtruncate fd' _ _ => if fd' =? fd then Holding fd else Misused
  | Holding fd, SysMmap _ fd' _ _ => if fd' =? fd then Holding fd else Misused
  | NoneOpen, SysFtruncate _ _ _ => Misused
  | NoneOpen, SysMmap _ _ _ _ => Misused
  | s, _ => s
  end.

Definition fd_usage (t : list event) (s : fd_state) : fd_state :=
  fold_left fd_step t s.

Lemma fd_usage_app t1 t2 s : fd_usage (t1 ++ t2) s = fd_usage t2 (fd_usage t1 s).
Proof. apply fold_left_app. Qed.

Lemma fd_usage_stored l s : fd_usage (stored <$> l) s = s.
Proof.
  revert s. induction l as [|a l IH]; intros s; [done|].
  cbn. unfold fd_usage in IH. rewrite <- (IH s) at 2. by destruct s.
Qed.

Lemma fd_usage_matched l s : fd_usage (matched <$> l) s = s.
Proof.
  revert s. induction l as [|a l IH]; intros s; [done|].
  cbn. unfold fd_usage in IH. rewrite <- (IH s) at 2. by destruct s.
Qed.

Ltac fd_eval :=
  repeat progress
    (cbn [fd_usage fold_left fd_step app];
     repeat match goal with
       | H : (_ <? 0) = _ |- _ => rewrite H
       end;
     rewrite ?Z.eqb_refl).

(* ===================================================================== *)
(** ** Region Mapper: further properties *)
(* ===================================================================== *)

Module ShmRwMore.
Import ShmRw ShmRwFacts.

(** Which set-up call failed first, if any. *)
Inductive setup : Type :=
  | OpenFailed
  | FtruncateFailed
  | MmapFailed
  | Mapped.

Definition setup_of (e : env) : setup :=
  if open_ret e <? 0 then OpenFailed
  else if ftruncate_ret e <? 0 then FtruncateFailed
  else if mmap_ret e =? MAP_FAILED then MmapFailed
  else Mapped.

Lemma setup_of_mapped (e : env) : setup_of e = Mapped ↔ mapped e.
Proof.
  unfold setup_of, mapped.
  destruct (Z.ltb_spec (open_ret e) 0); [split; [done | lia]|].
  destruct (Z.ltb_spec (ftruncate_ret e) 0); [split; [done | lia]|].
  destruct (Z.eqb_spec (mmap_ret e) MAP_FAILED); [split; [done | tauto]|].
  tauto.
Qed.

(** The run, path by path. *)
Lemma run_by_setup (e : env) (fs : gset string) :
  match setup_of e with
  | OpenFailed => open_ret e < 0
  | FtruncateFailed => 0 ≤ open_ret e ∧ ftruncate_ret e < 0
  | MmapFailed => 0 ≤ open_ret e ∧ 0 ≤ ftruncate_ret e ∧ mmap_ret e = MAP_FAILED
  | Mapped => mapped e
  end.
Proof.
  unfold setup_of, mapped.
  destruct (Z.ltb_spec (open_ret e) 0); [done|].
  destruct (Z.ltb_spec (ftruncate_ret e) 0); [done|].
  by destruct (Z.eqb_spec (mmap_ret e) MAP_FAILED).
Qed.

Lemma stderr_of_run_trace (e : env) (c : checks) : stderr_of (run_trace e c) = [].
Proof.
  unfold run_trace. rewrite !stderr_of_app, stderr_of_stored.
  destruct c; cbn [check_trace]; rewrite ?stderr_of_app, stderr_of_matched;
    reflexivity.
Qed.

Lemma mem_accesses_of_run_trace (e : env) (c : checks) :
  mem_accesses_of (run_trace e c) =
  Memset (SHARE_SIZE / 8) :: (stored <$> seqZ 0 128) ++
  match c with
  | AllMatch => matched <$> seqZ 0 128
  | Mismatch k v => (matched <$> seqZ 0 k) ++ [Load k v]
  end.
Proof.
  unfold run_trace. rewrite !mem_accesses_of_app, mem_accesses_of_stored.
  destruct c; cbn [check_trace];
    rewrite ?mem_accesses_of_app, mem_accesses_of_matched; cbn;
    rewrite ?app_nil_r; reflexivity.
Qed.

(** X1.  A set-up failure of the Region Mapper is diagnosed and fatal:
    the run exits with 1 without touching memory, and the only thing on
    the error stream is one [perror] naming the first call that failed
    ("open failed", "ftruncate failed" or "mmap failed").  When it is
    [open] that failed, no other system call is made and the file system
    is left as it was.  A run that maps the region writes nothing to the
    error stream, whether it passes or fails. *)
Theorem region_setup_failure_diagnosed (e : env) (fs : gset string) :
  let r := run e fs in
  let t := trace (final r) in
  (mapped e → stderr_of t = []) ∧
  (¬ mapped e →
     exit_code r = 1 ∧ mem_accesses_of t = [] ∧
     stderr_of t =
       [ if open_ret e <? 0 then "open failed"
         else if ftruncate_ret e <? 0 then "ftruncate failed"
         else "mmap failed" ]) ∧
  (open_ret e < 0 →
     syscalls_of t = [SysOpen SHARE_FILE (Z.lor O_CREAT O_RDWR) (open_ret e)] ∧
     files (final r) = fs).
Proof.
  cbv zeta. split; [|split].
  - intros Hmapped.
    destruct (run_mapped e fs Hmapped) as (c & w & _ & -> & Ht & _).
    cbn [final snd]. rewrite Ht. apply stderr_of_run_trace.
  - intros Hnot. pose proof (run_by_setup e fs) as Hpath.
    pose proof (setup_of_mapped e) as Hiff. unfold setup_of in *.
    destruct (open_ret e <? 0).
    { by rewrite (run_open_failed e fs Hpath). }
    destruct (ftruncate_ret e <? 0).
    { destruct Hpath as [Ho Hf]. by rewrite (run_ftruncate_failed e fs Ho Hf). }
    destruct (mmap_ret e =? MAP_FAILED).
    { destruct Hpath as (Ho & Hf & Hm). by rewrite (run_mmap_failed e fs Ho Hf Hm). }
    destruct Hnot. by apply Hiff.
  - intros Ho. by rewrite (run_open_failed e fs Ho).
Qed.

Definition no_permission : env :=
  Env (-1) 0 0 0 0 0 (λ _, 0) quiet SHARE_FILE.

Lemma region_setup_failure_diagnosed_witness :
  stderr_of (trace (final (run calm ∅))) = [] ∧
  exit_code (run no_permission ∅) = 1 ∧
  files (final (run no_permission ∅)) = ∅.
Proof.
  destruct (region_setup_failure_diagnosed calm ∅) as (Hquiet & _).
  destruct (region_setup_failure_diagnosed no_permission ∅) as (_ & Hfatal & Hopen).
  split; [exact (Hquiet mapped_calm)|]. split.
  - apply Hfatal. intros (Ho & _). cbn in Ho. lia.
  - apply Hopen. cbn. lia.
Defined.

(** X2.  The two sweeps of the Region Mapper are separated by fences:
    every store of a mapped run comes before a fence, and every load
    comes after a later fence; nothing is read before the first fence
    and nothing is written after it. *)
Theorem region_sweeps_fenced (e : env) (fs : gset string) :
  mapped e →
  ∃ before between after,
    trace (final (run e fs)) = before ++ Fence :: between ++ Fence :: after ∧
    loads_of before = [] ∧
    stores_of before = stores_of (trace (final (run e fs))) ∧
    loads_of between = [] ∧ stores_of between = [] ∧
    loads_of after = loads_of (trace (final (run e fs))) ∧
    stores_of after = [].
Proof.
  intros Hmapped.
  destruct (run_mapped e fs Hmapped) as (c & w & _ & -> & Ht & _).
  cbn [final snd]. rewrite Ht, stores_of_run_trace, loads_of_run_trace.
  exists (setup_trace e ++ (stored <$> seqZ 0 128)), [Stdout reading_line],
    (check_trace c ++ verdict c ++ cleanup_trace e).
  split; [unfold run_trace; rewrite <- !app_assoc; reflexivity|].
  autorewrite with views.
  change (loads_of (setup_trace e)) with (@nil (Z * Z)).
  change (stores_of (setup_trace e)) with (@nil (Z * Z)).
  change (loads_of (verdict c)) with (@nil (Z * Z)).
  change (loads_of (cleanup_trace e)) with (@nil (Z * Z)).
  rewrite !app_nil_r. repeat split; try reflexivity.
  destruct c; cbn [check_trace]; autorewrite with views; reflexivity.
Qed.

Lemma region_sweeps_fenced_witness :
  ∃ before between after,
    trace (final (run calm ∅)) = before ++ Fence :: between ++ Fence :: after ∧
    loads_of before = [] ∧ stores_of after = [].
Proof.
  destruct (region_sweeps_fenced calm ∅ mapped_calm)
    as (b & m & a & Ht & Hb & _ & _ & _ & _ & Ha).
  exists b, m, a. split; [exact Ht|]. split; [exact Hb | exact Ha].
Defined.


Lemma Forall_in_window_words (f : Z → event) (size n : Z) :
  (∀ i, 0 ≤ i < n → in_window size (f i)) →
  Forall (in_window size) (f <$> seqZ 0 n).
Proof.
  intros Hf. apply Forall_fmap, Forall_forall. intros i Hi%elem_of_seqZ.
  apply Hf. lia.
Qed.

(** X3.  The Region Mapper never leaves its mapping: in every run,
    every word it loads or stores lies inside the 1024 mapped bytes, and
    the [memset] covers exactly those bytes. *)
Theorem region_accesses_in_bounds (e : env) (fs : gset string) :
  Forall (in_window SHARE_SIZE) (mem_accesses_of (trace (final (run e fs)))) ∧
  (mapped e →
     ∃ rest, mem_accesses_of (trace (final (run e fs))) = Memset 128 :: rest ∧
             8 * 128 = SHARE_SIZE).
Proof.
  split.
  - pose proof (run_by_setup e fs) as Hpath. destruct (setup_of e).
    + rewrite (run_open_failed e fs Hpath). constructor.
    + destruct Hpath as [Ho Hf]. rewrite (run_ftruncate_failed e fs Ho Hf).
      constructor.
    + destruct Hpath as (Ho & Hf & Hm). rewrite (run_mmap_failed e fs Ho Hf Hm).
      constructor.
    + destruct (run_mapped e fs Hpath) as (c & w & Hc & -> & Ht & _).
      cbn [final snd]. rewrite Ht, mem_accesses_of_run_trace.
      change (SHARE_SIZE / 8) with 128.
      constructor; [cbn; unfold SHARE_SIZE; lia|].
      apply Forall_app. split.
      * apply Forall_in_window_words. intros i Hi. cbn. unfold SHARE_SIZE. lia.
      * destruct c as [|k v]; [|destruct Hc as [Hk _]; apply Forall_app; split].
        -- apply Forall_in_window_words. intros i Hi. cbn. unfold SHARE_SIZE. lia.
        -- apply Forall_in_window_words. intros i Hi. cbn. unfold SHARE_SIZE. lia.
        -- constructor; [|constructor]. cbn. unfold SHARE_SIZE. lia.
  - intros Hmapped.
    destruct (run_mapped e fs Hmapped) as (c & w & _ & -> & Ht & _).
    cbn [final snd]. rewrite Ht, mem_accesses_of_run_trace.
    eexists. split; reflexivity.
Qed.

Lemma region_accesses_in_bounds_witness :
  ∃ rest, mem_accesses_of (trace (final (run calm ∅))) = Memset 128 :: rest.
Proof.
  destruct (region_accesses_in_bounds calm ∅) as (_ & Hmemset).
  destruct (Hmemset mapped_calm) as (rest & Hrest & _). by exists rest.
Defined.

Lemma fd_usage_run_trace (e : env) (c : checks) :
  0 ≤ open_ret e → fd_usage (run_trace e c) NoneOpen = NoneOpen.
Proof.
  intros Ho. unfold run_trace.
  rewrite !fd_usage_app, fd_usage_stored.
  assert (Hsetup : fd_usage (setup_trace e) NoneOpen = Holding (open_ret e)).
  { apply ltb_0_false in Ho. unfold setup_trace. by fd_eval. }
  rewrite Hsetup.
  assert (Hchecks : fd_usage (check_trace c) (Holding (open_ret e)) =
                    Holding (open_ret e)).
  { destruct c; cbn [check_trace]; rewrite ?fd_usage_app, fd_usage_matched;
      reflexivity. }
  cbn [fd_usage fold_left fd_step].
  fold (fd_usage (check_trace c) (Holding (open_ret e))).
  rewrite Hchecks. unfold verdict, cleanup_trace. by fd_eval.
Qed.

(** X4.  The Region Mapper handles its file descriptor correctly on
    every path: it holds at most one descriptor, calls [ftruncate],
    [mmap] and [close] only on the descriptor a successful [open]
    returned, never after closing it, and has closed it when it
    exits. *)
Theorem region_descriptor_discipline (e : env) (fs : gset string) :
  fd_usage (trace (final (run e fs))) NoneOpen = NoneOpen.
Proof.
  pose proof (run_by_setup e fs) as Hpath. destruct (setup_of e).
  - rewrite (run_open_failed e fs Hpath). apply ltb_0_true in Hpath.
    cbn [final snd trace]. by fd_eval.
  - destruct Hpath as [Ho Hf]. rewrite (run_ftruncate_failed e fs Ho Hf).
    apply ltb_0_false in Ho. cbn [final snd trace]. by fd_eval.
  - destruct Hpath as (Ho & Hf & Hm). rewrite (run_mmap_failed e fs Ho Hf Hm).
    apply ltb_0_false in Ho. cbn [final snd trace]. by fd_eval.
  - destruct (run_mapped e fs Hpath) as (c & w & _ & -> & Ht & _).
    cbn [final snd]. rewrite Ht. apply fd_usage_run_trace, Hpath.
Qed.

(** X5.  The Region Mapper touches the file system in two places at
    most: at [/tmp/simbricks_shm_test] and, when an entry already lies
    there, at the place that entry leads to, because [open] follows a
    symbolic link.  Every other path exists after the run exactly if it
    existed before; when nothing lay at the path before the run, that is
    every path but [/tmp/simbricks_shm_test] itself. *)
Theorem region_file_system_footprint (e : env) (fs : gset string) (path : string) :
  path ≠ SHARE_FILE →
  path ≠ open_leads_to e ∨ SHARE_FILE ∉ fs →
  path ∈ files (final (run e fs)) ↔ path ∈ fs.
Proof.
  intros Hother Hfar.
  assert (Htarget : path ≠ open_target SHARE_FILE (open_leads_to e) fs).
  { destruct Hfar as [Hfar | Hfresh].
    - unfold open_target. by destruct (bool_decide _).
    - by rewrite (open_target_fresh _ _ _ Hfresh). }
  assert (Hunlinked : path ∈ unlinked e fs ↔ path ∈ fs).
  { unfold unlinked.
    destruct (unlink_ret e =? 0);
      rewrite ?elem_of_difference, ?elem_of_union, ?elem_of_singleton; tauto. }
  pose proof (run_by_setup e fs) as Hpath. destruct (setup_of e).
  - by rewrite (run_open_failed e fs Hpath).
  - destruct Hpath as [Ho Hf]. by rewrite (run_ftruncate_failed e fs Ho Hf).
  - destruct Hpath as (Ho & Hf & Hm). by rewrite (run_mmap_failed e fs Ho Hf Hm).
  - destruct (run_mapped e fs Hpath) as (c & w & _ & -> & _ & Hfiles).
    cbn [final snd]. rewrite Hfiles. exact Hunlinked.
Qed.

Lemma region_file_system_footprint_witness :
  "/etc/passwd" ∈ files (final (run calm {["/etc/passwd"]})).
Proof.
  apply (region_file_system_footprint calm {["/etc/passwd"]} "/etc/passwd").
  - discriminate.
  - left. discriminate.
  - by apply elem_of_singleton.
Defined.

(** X6.  The Region Mapper never reports success without having done
    the work: its exit code is 0 or 1, and when it is 0 then open,
    ftruncate and mmap all succeeded, all 128 words were written with
    their pattern, all 128 were read back equal to it, and the last line
    printed is the PASS line. *)
Theorem region_exit_zero_is_earned (e : env) (fs : gset string) :
  let r := run e fs in
  let t := trace (final r) in
  (exit_code r = 0 ∨ exit_code r = 1) ∧
  (exit_code r = 0 →
     mapped e ∧
     stores_of t = expected <$> seqZ 0 128 ∧
     loads_of t = expected <$> seqZ 0 128 ∧
     last (stdout_of t) = Some pass_line).
Proof.
  cbv zeta. pose proof (run_by_setup e fs) as Hpath. destruct (setup_of e).
  - rewrite (run_open_failed e fs Hpath). split; [by right | done].
  - destruct Hpath as [Ho Hf]. rewrite (run_ftruncate_failed e fs Ho Hf).
    split; [by right | done].
  - destruct Hpath as (Ho & Hf & Hm). rewrite (run_mmap_failed e fs Ho Hf Hm).
    split; [by right | done].
  - destruct (run_mapped e fs Hpath) as (c & w & _ & -> & Ht & _).
    cbn [final snd exit_code fst]. rewrite Ht.
    rewrite stores_of_run_trace, loads_of_run_trace, loads_of_check_trace,
      stdout_of_run_trace.
    destruct c as [|k v]; cbn [ok_of truthy negb Z.eqb].
    + split; [by left|]. intros _. split; [exact Hpath|].
      split; [reflexivity|]. split; [reflexivity|].
      rewrite !app_assoc. apply last_snoc.
    + split; [by right | done].
Qed.

Lemma region_exit_zero_is_earned_witness :
  loads_of (trace (final (run calm ∅))) = expected <$> seqZ 0 128.
Proof.
  destruct (region_exit_zero_is_earned calm ∅) as (_ & Hearned).
  apply Hearned. vm_compute. reflexivity.
Defined.


(** X16.  The standard output of a Region Mapper run on a mapped region
    is five progress lines followed by the verdict, which is decided by
    the last word read: the PASS line if it matched, and otherwise one
    mismatch line for that word (its index in decimal, the expected and
    the actual value as 16 hexadecimal digits each) followed by the FAIL
    line.  No run reports more than one mismatch. *)
Theorem region_output_of_mapped_run (e : env) (fs : gset string) :
  mapped e →
  let t := trace (final (run e fs)) in
  ∃ k v,
    0 ≤ k < 128 ∧
    last (loads_of t) = Some (k, v) ∧
    stdout_of t =
      [ "[shm_rw_syscall] Creating shared memory region using file-based approach..." +:+ LF;
        "[shm_rw_syscall] Successfully mapped shared memory to virtual address " +:+
          fmt_ptr (mmap_ret e) +:+ LF;
        "[shm_rw_syscall] Initializing memory with test pattern..." +:+ LF;
        "[shm_rw_syscall] Writing test pattern..." +:+ LF;
        "[shm_rw_syscall] Reading back and verifying..." +:+ LF ] ++
      (if v =? pattern k
       then [ "[shm_rw_syscall] PASS: all 1024 bytes match" +:+ LF ]
       else [ "[shm_rw_syscall] Mismatch at index " +:+ fmt_dec k +:+
              ": expected 0x" +:+ fmt_hex16 (pattern k) +:+
              ", got 0x" +:+ fmt_hex16 v +:+ LF;
              "[shm_rw_syscall] FAIL: data mismatch" +:+ LF ]) ∧
    number_of 10 (fmt_dec k) = k ∧
    number_of 16 (fmt_hex16 (pattern k)) = pattern k ∧
    (0 ≤ v < 2 ^ 64 → number_of 16 (fmt_hex16 v) = v).
Proof.
  intros Hmapped. cbv zeta.
  assert (Hread : ∀ k v, 0 ≤ k < 128 →
            number_of 10 (fmt_dec k) = k ∧
            number_of 16 (fmt_hex16 (pattern k)) = pattern k ∧
            (0 ≤ v < 2 ^ 64 → number_of 16 (fmt_hex16 v) = v)).
  { intros k v Hk. split; [apply number_of_fmt_dec; lia|].
    split; [apply number_of_fmt_hex16, pattern_range; lia|].
    intros Hv. by apply number_of_fmt_hex16. }
  destruct (run_mapped e fs Hmapped) as (c & w & Hc & -> & Ht & _).
  cbn [final snd]. rewrite Ht.
  rewrite loads_of_run_trace, loads_of_check_trace, stdout_of_run_trace.
  destruct c as [|k v].
  - exists 127, (pattern 127). split; [lia|]. split; [reflexivity|].
    rewrite Z.eqb_refl. split; [reflexivity|]. apply Hread. lia.
  - exists k, v. destruct Hc as [Hk Hbad]. split; [exact Hk|].
    split; [apply last_snoc|].
    apply Z.eqb_neq in Hbad. rewrite Hbad.
    split; [reflexivity|]. apply Hread. exact Hk.
Qed.

Lemma region_output_of_mapped_run_witness :
  ∃ k v,
    last (loads_of (trace (final (run (corrupting calm 5 77) ∅)))) = Some (k, v) ∧
    number_of 10 (fmt_dec k) = k.
Proof.
  destruct (region_output_of_mapped_run (corrupting calm 5 77) ∅ mapped_calm)
    as (k & v & _ & Hlast & _ & Hk & _).
  exists k, v. split; [exact Hlast | exact Hk].
Defined.

End ShmRwMore.

(* ===================================================================== *)
(** ** The test pattern: further properties *)
(* ===================================================================== *)

(** X7.  For an index below 2^32 the pattern word [0xDEADBEEF00000000 | i]
    is the tag plus the index: it fits in 64 bits, its high half is
    [0xDEADBEEF], its low half is the index, and it grows with the index.
    The bound is sharp: index 2^32 gives the same word as index 0. *)
Theorem pattern_layout (i j : Z) :
  0 ≤ i < 2 ^ 32 → 0 ≤ j < 2 ^ 32 →
  pattern i = TAG + i ∧
  0 ≤ pattern i < 2 ^ 64 ∧
  Z.shiftr (pattern i) 32 = 0xDEADBEEF ∧
  Z.land (pattern i) (Z.ones 32) = i ∧
  (i < j → pattern i < pattern j) ∧
  pattern (2 ^ 32) = pattern 0.
Proof.
  intros Hi Hj.
  assert (Hadd : ∀ k, 0 ≤ k < 2 ^ 32 → pattern k = TAG + k).
  { intros k Hk. unfold pattern.
    pose proof (Z.add_lor_land TAG k) as H. rewrite (TAG_disjoint k Hk) in H. lia. }
  split; [by apply Hadd|]. rewrite (Hadd i Hi), (Hadd j Hj).
  split; [unfold TAG; lia|]. split.
  - rewrite Z.shiftr_div_pow2 by lia. unfold TAG.
    symmetry. apply (Z.div_unique _ _ _ i); lia.
  - split; [rewrite <- (Hadd i Hi); by apply pattern_low|].
    split; [lia | reflexivity].
Qed.

Lemma pattern_layout_witness :
  pattern 127 = 0xDEADBEEF0000007F ∧ pattern 3 < pattern 127.
Proof.
  destruct (pattern_layout 3 127) as (_ & _ & _ & _ & Hlt & _); [lia | lia |].
  split; [reflexivity | apply Hlt; lia].
Defined.

(* ===================================================================== *)
(** ** Fixed-Address Mapper: further properties *)
(* ===================================================================== *)

Module ShmRwFixedAddrMore.
Import ShmRwFixedAddr ShmRwFixedAddrFacts.

(** The device mapping succeeded, but the adjusted pointer of line 58
    compares equal to [MAP_FAILED] on line 92. *)
Definition bad_pointer (e : env) : Prop :=
  0 ≤ devmem_open_ret e ∧ devmem_mmap_ret e ≠ MAP_FAILED ∧
  target_ptr e = MAP_FAILED.

Definition bad_pointer_files (e : env) (fs : gset string) : gset string :=
  if bool_decide (SIM_FILE ∈ fs) && (unlink_ret e =? 0) then fs ∖ {[SIM_FILE]}
  else fs.

Definition bad_pointer_trace (e : env) (present : bool) : list event :=
  [ Perror "mmap failed";
    SysClose (devmem_open_ret e) (close_ret e);
    SysAccess SIM_FILE (if present then 0 else -1) ] ++
  (if present then [SysUnlink SIM_FILE (unlink_ret e)] else []).

Lemma run_bad_pointer (e : env) (fs : gset string) :
  bad_pointer e →
  run e fs =
  (Return 1,
   World (phys_words e) 0 (bad_pointer_files e fs)
     (banner ++ dev_trace e ++ bad_pointer_trace e (bool_decide (SIM_FILE ∈ fs)))).
Proof.
  intros (Ho & Hm & Hp). unfold run, main, bad_pointer_files, bad_pointer_trace.
  prog_step.
  unfold prog_bind at 1. rewrite try_dev_mem_run. prog_step.
  rewrite (ltb_0_false _ Ho), (eqb_false _ _ Hm). cbn [orb].
  unfold fallback. rewrite (ltb_0_false _ Ho). prog_step.
  rewrite Hp, Z.eqb_refl. prog_step. rewrite (leb_0_true _ Ho). prog_step.
  destruct (bool_decide (SIM_FILE ∈ fs)); prog_step;
    f_equal; f_equal; trace_eq.
Qed.

(** The four ways a run can go. *)
Inductive path : Type :=
  | ViaDevice
  | BadPointer
  | ViaFile
  | FileFailed.

Definition path_of (e : env) : path :=
  if uses_file e then
    if (file_open_ret e <? 0) || (file_ftruncate_ret e <? 0) ||
       (file_mmap_ret e =? MAP_FAILED)
    then FileFailed else ViaFile
  else if target_ptr e =? MAP_FAILED then BadPointer else ViaDevice.

Lemma run_by_path (e : env) :
  match path_of e with
  | ViaDevice => via_device e
  | BadPointer => bad_pointer e
  | ViaFile => via_file e
  | FileFailed => dev_unavailable e ∧ file_failed e
  end.
Proof.
  unfold path_of, uses_file, via_device, bad_pointer, via_file, dev_unavailable,
    file_ok, file_failed.
  destruct (Z.ltb_spec (devmem_open_ret e) 0);
    destruct (Z.eqb_spec (devmem_mmap_ret e) MAP_FAILED);
    destruct (Z.eqb_spec (target_ptr e) MAP_FAILED);
    destruct (Z.ltb_spec (file_open_ret e) 0);
    destruct (Z.ltb_spec (file_ftruncate_ret e) 0);
    destruct (Z.eqb_spec (file_mmap_ret e) MAP_FAILED);
    cbn [orb]; tauto.
Qed.


Lemma mapped_by_path (e : env) :
  mapped e ↔ path_of e = ViaDevice ∨ path_of e = ViaFile.
Proof.
  pose proof (run_by_path e) as Hpath. unfold mapped. split.
  - intros Hmapped. destruct (path_of e); [by left | | by right |].
    + destruct Hpath as (Ho & Hm & Hp).
      destruct Hmapped as [(_ & _ & Hp') | ([Ho' | [_ Hm']] & _)];
        [done | lia | done].
    + destruct Hpath as [Hdev Hfailed].
      destruct Hmapped as [(Ho & Hm & _) | (_ & Ho & Hf & Hm)].
      * destruct Hdev as [Ho' | [_ Hm']]; [lia | done].
      * destruct Hfailed as [Ho' | [[_ Hf'] | (_ & _ & Hm')]]; [lia | lia | done].
  - intros [Heq | Heq]; rewrite Heq in Hpath; [by left | by right].
Qed.

(** X8.  With a page size of 2^k bytes, k ≤ 31 (every common page size
    and huge-page size up to 2 GiB), the target address 0x80000000 is
    page aligned: the aligned address is the target itself, the in-page
    offset is 0, the device mapping is requested for exactly 4096 bytes
    at offset 0x80000000, the pointer returned by [mmap] is used
    unchanged, and [munmap] is given back that pointer and that
    length. *)
Theorem fixed_target_page_aligned (e : env) (fs : gset string) (k : Z) :
  0 ≤ k ≤ 31 → page_size e = 2 ^ k →
  aligned_addr e = FIXED_PHYS_ADDR ∧
  offset e = 0 ∧
  dev_mmap e =
    SysMmap MAP_SIZE (devmem_open_ret e) FIXED_PHYS_ADDR (devmem_mmap_ret e) ∧
  (0 ≤ devmem_mmap_ret e < 2 ^ 64 → target_ptr e = devmem_mmap_ret e) ∧
  (via_device e → 0 ≤ devmem_mmap_ret e < 2 ^ 64 →
     ∃ rest,
       syscalls_of (trace (final (run e fs))) =
       [ SysOpen "/dev/mem" (Z.lor O_RDWR O_SYNC) (devmem_open_ret e);
         SysConf (2 ^ k);
         SysMmap MAP_SIZE (devmem_open_ret e) FIXED_PHYS_ADDR (devmem_mmap_ret e);
         SysMunmap (devmem_mmap_ret e) MAP_SIZE (munmap_ret e);
         SysClose (devmem_open_ret e) (close_ret e) ] ++ rest).
Proof.
  intros Hk Hps.
  assert (Haligned : aligned_addr e = FIXED_PHYS_ADDR).
  { unfold aligned_addr. rewrite Hps.
    assert (Hn : ∃ n : nat, (n ≤ 31)%nat ∧ k = Z.of_nat n)
      by (exists (Z.to_nat k); lia).
    destruct Hn as (n & Hn & ->).
    do 32 (destruct n as [|n]; [vm_compute; reflexivity|]). lia. }
  assert (Hoffset : offset e = 0).
  { unfold offset. rewrite Haligned. reflexivity. }
  assert (Hptr : 0 ≤ devmem_mmap_ret e < 2 ^ 64 → target_ptr e = devmem_mmap_ret e).
  { intros Hr. unfold target_ptr, wrap64. rewrite Hoffset, Z.add_0_r.
    apply Z.mod_small. lia. }
  split; [exact Haligned|]. split; [exact Hoffset|].
  split; [unfold dev_mmap; rewrite Haligned, Hoffset; reflexivity|].
  split; [exact Hptr|].
  intros Hdev Hr. rewrite (run_reaching_tests e fs (or_introl Hdev)).
  cbn [final snd trace]. rewrite syscalls_of_app, syscalls_of_test_trace.
  destruct Hdev as (Ho & Hm & _).
  unfold setup_trace, uses_file, dev_trace, test_fd, test_ptr, uses_file,
    cleanup_trace.
  rewrite (ltb_0_false _ Ho), (eqb_false _ _ Hm). cbn [orb].
  unfold dev_mmap, dev_open. rewrite Haligned, Hoffset, (Hptr Hr), Hps.
  eexists. cbn. reflexivity.
Qed.

Lemma fixed_target_page_aligned_witness :
  aligned_addr privileged = 0x80000000 ∧ offset privileged = 0 ∧
  target_ptr privileged = 0x7F0000002000.
Proof.
  destruct (fixed_target_page_aligned privileged ∅ 12) as (Ha & Ho & _ & Hp & _);
    [lia | reflexivity |].
  split; [exact Ha|]. split; [exact Ho|]. apply Hp. cbn. lia.
Defined.

Lemma loads_of_test_trace e fd ptr (o : observed) (present : bool) :
  loads_of (test_trace e fd ptr o present) =
  [ (0, original o); (0, single o); (0, swept0 (in_sweep o));
    (1, swept1 (in_sweep o)); (2, swept2 (in_sweep o));
    (3, swept3 (in_sweep o)) ].
Proof.
  unfold test_trace, sweep_trace. autorewrite with views.
  rewrite !loads_of_sweep_step. by destruct present.
Qed.

Lemma sweep_ok_spec (s : swept) :
  sweep_ok s = true ↔
  swept0 s = pattern 0 ∧ swept1 s = pattern 1 ∧
  swept2 s = pattern 2 ∧ swept3 s = pattern 3.
Proof.
  unfold sweep_ok. rewrite !andb_true_iff, !Z.eqb_eq. tauto.
Qed.

(** X9.  Whenever the test sequence runs, the program reads six words:
    the original value and the single-value read-back at offset 0, then
    one read-back per sweep offset 0, 1, 2, 3, whatever the earlier ones
    gave.  Its exit code is 0 exactly when the four sweep read-backs
    equal their patterns, and 1 otherwise; the single-value read-back
    does not enter the exit code. *)
Theorem fixed_exit_code_is_sweep_verdict (e : env) (fs : gset string) :
  mapped e →
  let r := run e fs in
  ∃ v0 v r0 r1 r2 r3,
    loads_of (trace (final r)) =
      [(0, v0); (0, v); (0, r0); (1, r1); (2, r2); (3, r3)] ∧
    (exit_code r = 0 ↔
       r0 = pattern 0 ∧ r1 = pattern 1 ∧ r2 = pattern 2 ∧ r3 = pattern 3) ∧
    (exit_code r = 0 ∨ exit_code r = 1).
Proof.
  intros Hmapped. cbv zeta. rewrite (run_reaching_tests e fs Hmapped).
  cbn [final snd trace exit_code fst].
  exists (original (seen e)), (single (seen e)),
    (swept0 (in_sweep (seen e))), (swept1 (in_sweep (seen e))),
    (swept2 (in_sweep (seen e))), (swept3 (in_sweep (seen e))).
  rewrite loads_of_app, loads_of_test_trace.
  destruct (setup_trace_no_access e) as (_ & _ & ->).
  split; [reflexivity|].
  rewrite <- sweep_ok_spec. destruct (sweep_ok (in_sweep (seen e))).
  - split; [done | by left].
  - split; [split; discriminate | by right].
Qed.

Lemma fixed_exit_code_is_sweep_verdict_witness :
  exit_code (run privileged ∅) = 0 ∨ exit_code (run privileged ∅) = 1.
Proof.
  destruct (fixed_exit_code_is_sweep_verdict privileged ∅
              (or_introl via_device_privileged))
    as (v0 & v & r0 & r1 & r2 & r3 & _ & _ & Hcode).
  exact Hcode.
Defined.


(** What the sweep prints for offset [i] when it reads back [r]. *)
Definition sweep_lines (i r : Z) : list string :=
  location_line i (pattern i) r ::
  (if r =? pattern i then [] else [offset_fail_line i]).

Definition test_lines (mem_ptr : Z) (o : observed) : list string :=
  [ tag +:+ "Successfully mapped address 0x" +:+ fmt_hex FIXED_PHYS_ADDR +:+
    " to virtual address " +:+ fmt_ptr mem_ptr +:+ LF;
    tag +:+ "Running simple test..." +:+ LF;
    tag +:+ "Original value at 0x" +:+ fmt_hex FIXED_PHYS_ADDR +:+ ": 0x" +:+
    fmt_hex16 (original o) +:+ LF;
    tag +:+ "Writing test value 0x" +:+ fmt_hex16 TEST_VALUE +:+ LF;
    tag +:+ "Read back value: 0x" +:+ fmt_hex16 (single o) +:+ LF;
    (if single o =? TEST_VALUE then single_pass_line else single_fail_line);
    tag +:+ "Testing multiple memory locations..." +:+ LF ] ++
  sweep_lines 0 (swept0 (in_sweep o)) ++ sweep_lines 1 (swept1 (in_sweep o)) ++
  sweep_lines 2 (swept2 (in_sweep o)) ++ sweep_lines 3 (swept3 (in_sweep o)) ++
  [ (if sweep_ok (in_sweep o) then sweep_pass_line else sweep_fail_line);
    tag +:+ "Restoring original value" +:+ LF;
    tag +:+ "Test completed successfully" +:+ LF ].

Lemma stdout_of_sweep_step (i r : Z) :
  stdout_of (sweep_step i r) = sweep_lines i r.
Proof. unfold sweep_step, sweep_lines. by destruct (r =? pattern i). Qed.

Lemma stderr_of_sweep_step (i r : Z) : stderr_of (sweep_step i r) = [].
Proof. unfold sweep_step. by destruct (r =? pattern i). Qed.

Lemma stdout_of_test_trace e fd ptr (o : observed) (present : bool) :
  stdout_of (test_trace e fd ptr o present) = test_lines ptr o.
Proof.
  unfold test_trace, sweep_trace, test_lines. autorewrite with views.
  rewrite !stdout_of_sweep_step, <- !app_assoc. unfold single_ok.
  destruct present; reflexivity.
Qed.

Lemma stderr_of_test_trace e fd ptr (o : observed) (present : bool) :
  stderr_of (test_trace e fd ptr o present) = [].
Proof.
  unfold test_trace, sweep_trace. rewrite !stderr_of_app, !stderr_of_sweep_step.
  by destruct present.
Qed.

Lemma stderr_of_setup_trace (e : env) : stderr_of (setup_trace e) = [].
Proof.
  unfold setup_trace, dev_trace. rewrite !stderr_of_app.
  by destruct (devmem_open_ret e <? 0), (devmem_mmap_ret e =? MAP_FAILED),
    (uses_file e).
Qed.



Lemma seen_quiet_window (e : env) :
  (∀ n m, others e n m = m) →
  single (seen e) = TEST_VALUE ∧
  ∀ j, left_behind (seen e) j =
       if (1 <=? j) && (j <=? 3) then pattern j else backing e j.
Proof.
  intros Hq. unfold seen, observe, observe_sweep.
  cbn [original single in_sweep left_behind swept0 swept1 swept2 swept3
       after_sweep].
  rewrite !Hq. unfold upd. split; [reflexivity|]. intros j.
  destruct (Z.eqb_spec j 0) as [->|]; [reflexivity|].
  destruct (Z.eqb_spec j 3) as [->|]; [reflexivity|].
  destruct (Z.eqb_spec j 2) as [->|]; [reflexivity|].
  destruct (Z.eqb_spec j 1) as [->|]; [reflexivity|].
  destruct (Z.leb_spec 1 j), (Z.leb_spec j 3); cbn [andb]; try reflexivity. lia.
Qed.




Lemma fd_usage_sweep_step (i r : Z) (s : fd_state) :
  fd_usage (sweep_step i r) s = s.
Proof. unfold sweep_step. by destruct (r =? pattern i), s. Qed.

Lemma fd_usage_banner (s : fd_state) : fd_usage banner s = s.
Proof. by destruct s. Qed.

Lemma fd_usage_dev_trace (e : env) :
  fd_usage (dev_trace e) NoneOpen =
  if uses_file e then NoneOpen else Holding (devmem_open_ret e).
Proof.
  unfold dev_trace, uses_file, dev_open, dev_mmap.
  destruct (devmem_open_ret e <? 0) eqn:Ho; [by fd_eval|].
  destruct (devmem_mmap_ret e =? MAP_FAILED); cbn [orb app]; by fd_eval.
Qed.

Lemma fd_usage_test_trace e fd ptr (o : observed) (present : bool) :
  fd_usage (test_trace e fd ptr o present) (Holding fd) = NoneOpen.
Proof.
  unfold test_trace, sweep_trace, cleanup_trace, single_trace, restore_trace.
  rewrite !fd_usage_app, !fd_usage_sweep_step.
  destruct present; by fd_eval.
Qed.

(** X12.  The Fixed-Address Mapper handles its descriptors correctly
    on every path: it never holds two at once (the device descriptor is
    closed before the simulation file is opened), calls [ftruncate],
    [mmap] and [close] only on the descriptor it holds, and holds none
    when it exits. *)
Theorem fixed_descriptor_discipline (e : env) (fs : gset string) :
  fd_usage (trace (final (run e fs))) NoneOpen = NoneOpen.
Proof.
  pose proof (run_by_path e) as Hpath.
  pose proof (fd_usage_dev_trace e) as Hdev. unfold path_of in Hpath.
  destruct (uses_file e) eqn:Huses.
  - destruct (_ || _ || _).
    + destruct Hpath as [Hun [Ho | [[Ho Hf] | (Ho & Hf & Hm)]]].
      * rewrite (run_file_open_failed e fs Hun Ho). cbn [final snd trace].
        rewrite !fd_usage_app, fd_usage_banner, Hdev. apply ltb_0_true in Ho.
        unfold using_file, file_open. by fd_eval.
      * rewrite (run_file_ftruncate_failed e fs Hun Ho Hf). cbn [final snd trace].
        rewrite !fd_usage_app, fd_usage_banner, Hdev. apply ltb_0_false in Ho.
        unfold using_file, file_open, file_ftruncate. by fd_eval.
      * rewrite (run_file_mmap_failed e fs Hun Ho Hf Hm). cbn [final snd trace].
        rewrite !fd_usage_app, fd_usage_banner, Hdev. apply ltb_0_false in Ho.
        unfold using_file, file_open, file_ftruncate, file_mmap. by fd_eval.
    + rewrite (run_reaching_tests e fs (or_intror Hpath)). cbn [final snd trace].
      unfold setup_trace, test_fd. rewrite Huses, !fd_usage_app, fd_usage_banner, Hdev.
      destruct Hpath as (_ & Ho & _). apply ltb_0_false in Ho.
      unfold file_trace, using_file, file_open, file_ftruncate, file_mmap. fd_eval.
      apply fd_usage_test_trace.
  - destruct (target_ptr e =? MAP_FAILED).
    + rewrite (run_bad_pointer e fs Hpath). cbn [final snd trace].
      rewrite !fd_usage_app, fd_usage_banner, Hdev. unfold bad_pointer_trace.
      destruct (bool_decide _); by fd_eval.
    + rewrite (run_reaching_tests e fs (or_introl Hpath)). cbn [final snd trace].
      unfold setup_trace, test_fd. rewrite Huses, !fd_usage_app, fd_usage_banner, Hdev.
      cbn [fd_usage fold_left]. apply fd_usage_test_trace.
Qed.

(** X13.  The Fixed-Address Mapper touches the file system in two
    places at most: at [/tmp/fixed_addr_mem] and, when an entry already
    lies there, at the place that entry leads to, because [open] follows
    a symbolic link.  Every other path exists after a run exactly if it
    existed before.  On every exit path on which the simulation file was
    opened, no entry is left at [/tmp/fixed_addr_mem] once [unlink]
    succeeds; what [open] created through a link is still there. *)
Theorem fixed_file_system_footprint (e : env) (fs : gset string) :
  (∀ path, path ≠ SIM_FILE →
     path ≠ file_open_leads_to e ∨ SIM_FILE ∉ fs →
     path ∈ files (final (run e fs)) ↔ path ∈ fs) ∧
  (dev_unavailable e → 0 ≤ file_open_ret e → unlink_ret e = 0 →
     SIM_FILE ∉ files (final (run e fs))) ∧
  (dev_unavailable e → 0 ≤ file_open_ret e →
     SIM_FILE ∈ fs → file_open_leads_to e ≠ SIM_FILE →
     file_open_leads_to e ∈ files (final (run e fs))).
Proof.
  assert (Htarget : ∀ path, path ≠ file_open_leads_to e ∨ SIM_FILE ∉ fs →
            path ≠ SIM_FILE →
            path ≠ open_target SIM_FILE (file_open_leads_to e) fs).
  { intros path [Hfar | Hfresh] Hother.
    - unfold open_target. by destruct (bool_decide _).
    - by rewrite (open_target_fresh _ _ _ Hfresh). }
  assert (Hunlinked : ∀ path, path ≠ SIM_FILE →
            path ≠ open_target SIM_FILE (file_open_leads_to e) fs →
            path ∈ unlinked e fs ↔ path ∈ fs).
  { intros path Hother Hfar. unfold unlinked.
    destruct (unlink_ret e =? 0);
      rewrite ?elem_of_difference, ?elem_of_union, ?elem_of_singleton; tauto. }
  assert (Hexit : ∀ path, path ≠ SIM_FILE →
            path ≠ open_target SIM_FILE (file_open_leads_to e) fs →
            path ∈ files_at_exit e fs ↔ path ∈ fs).
  { intros path Hother Hfar. unfold files_at_exit, files_at_tests.
    destruct (uses_file e), (_ && _);
      rewrite ?elem_of_difference, ?elem_of_union, ?elem_of_singleton; tauto. }
  pose proof (run_by_path e) as Hpath. unfold path_of in Hpath.
  split; [|split].
  - intros path Hother Hfar. specialize (Htarget path Hfar Hother).
    destruct (uses_file e) eqn:Huses.
    + destruct (_ || _ || _).
      * destruct Hpath as [Hun [Ho | [[Ho Hf] | (Ho & Hf & Hm)]]].
        -- by rewrite (run_file_open_failed e fs Hun Ho).
        -- rewrite (run_file_ftruncate_failed e fs Hun Ho Hf). by apply Hunlinked.
        -- rewrite (run_file_mmap_failed e fs Hun Ho Hf Hm). by apply Hunlinked.
      * rewrite (run_reaching_tests e fs (or_intror Hpath)). by apply Hexit.
    + destruct (target_ptr e =? MAP_FAILED).
      * rewrite (run_bad_pointer e fs Hpath). cbn [final snd files].
        unfold bad_pointer_files.
        destruct (_ && _); rewrite ?elem_of_difference, ?elem_of_singleton; tauto.
      * rewrite (run_reaching_tests e fs (or_introl Hpath)). by apply Hexit.
  - intros Hun Ho Hu. unfold uses_file in Hpath.
    rewrite (dev_unavailable_spec e Hun) in Hpath.
    assert (Hgone : SIM_FILE ∉ unlinked e fs).
    { unfold unlinked. rewrite Hu. cbn.
      rewrite elem_of_difference, elem_of_singleton. tauto. }
    destruct (_ || _ || _).
    + destruct Hpath as [_ [Ho' | [[_ Hf] | (_ & Hf & Hm)]]]; [lia | |].
      * by rewrite (run_file_ftruncate_failed e fs Hun Ho Hf).
      * by rewrite (run_file_mmap_failed e fs Hun Ho Hf Hm).
    + rewrite (run_reaching_tests e fs (or_intror Hpath)). cbn [final snd files].
      unfold files_at_exit, files_at_tests, uses_file.
      rewrite (dev_unavailable_spec e Hun), Hu.
      rewrite bool_decide_eq_true_2 by apply open_target_present.
      cbn. rewrite elem_of_difference, elem_of_singleton. tauto.
  - intros Hun Ho Hin Hne. unfold uses_file in Hpath.
    rewrite (dev_unavailable_spec e Hun) in Hpath.
    assert (Hkept : file_open_leads_to e ∈ unlinked e fs).
    { unfold unlinked, open_target. rewrite bool_decide_eq_true_2 by exact Hin.
      destruct (unlink_ret e =? 0);
        rewrite ?elem_of_difference, ?elem_of_union, ?elem_of_singleton; tauto. }
    destruct (_ || _ || _).
    + destruct Hpath as [_ [Ho' | [[_ Hf] | (_ & Hf & Hm)]]]; [lia | |].
      * by rewrite (run_file_ftruncate_failed e fs Hun Ho Hf).
      * by rewrite (run_file_mmap_failed e fs Hun Ho Hf Hm).
    + rewrite (run_reaching_tests e fs (or_intror Hpath)). cbn [final snd files].
      unfold files_at_exit, files_at_tests, uses_file, open_target.
      rewrite (dev_unavailable_spec e Hun).
      rewrite (bool_decide_eq_true_2 (SIM_FILE ∈ fs)) by exact Hin.
      destruct (_ && _);
        rewrite ?elem_of_difference, ?elem_of_union, ?elem_of_singleton; tauto.
Qed.

Lemma fixed_file_system_footprint_witness :
  ("/etc/passwd" ∈ files (final (run unprivileged {["/etc/passwd"]}))) ∧
  ("/tmp/fixed_addr_mem" ∉ files (final (run unprivileged ∅))).
Proof.
  split.
  - apply (fixed_file_system_footprint unprivileged {["/etc/passwd"]}).
    + discriminate.
    + left. discriminate.
    + by apply elem_of_singleton.
  - apply (fixed_file_system_footprint unprivileged ∅).
    + left. reflexivity.
    + cbn. lia.
    + reflexivity.
Defined.

(** X14.  The Fixed-Address Mapper never leaves its mapping: in every
    run, every word it loads or stores lies inside the 4096 mapped
    bytes (it touches the first four words only), and a run that does
    not reach the test sequence touches no memory at all. *)
Theorem fixed_accesses_in_bounds (e : env) (fs : gset string) :
  Forall (in_window MAP_SIZE) (mem_accesses_of (trace (final (run e fs)))) ∧
  Forall (in_window 32) (mem_accesses_of (trace (final (run e fs)))) ∧
  (¬ mapped e → mem_accesses_of (trace (final (run e fs))) = []).
Proof.
  assert (Hcases : mem_accesses_of (trace (final (run e fs))) = [] ∨
            ∃ o, mapped e ∧ mem_accesses_of (trace (final (run e fs))) =
                 mem_accesses_of (test_trace e 0 0 o false)).
  { pose proof (run_by_path e) as Hpath. unfold path_of in Hpath.
    destruct (dev_trace_no_access e) as (Hdev & _).
    destruct (uses_file e) eqn:Huses.
    - destruct (_ || _ || _).
      + left. destruct Hpath as [Hun Hfailed].
        destruct (run_file_failed e fs Hun Hfailed) as (rest & w & -> & Ht & Hrest).
        cbn [final snd]. rewrite Ht, !mem_accesses_of_app, Hdev, Hrest. reflexivity.
      + right. exists (seen e). split; [by right|].
        rewrite (run_reaching_tests e fs (or_intror Hpath)). cbn [final snd trace].
        destruct (setup_trace_no_access e) as (Hsetup & _).
        rewrite mem_accesses_of_app, Hsetup, !mem_accesses_of_test_trace.
        reflexivity.
    - destruct (target_ptr e =? MAP_FAILED).
      + left. rewrite (run_bad_pointer e fs Hpath). cbn [final snd trace].
        rewrite !mem_accesses_of_app, Hdev. unfold bad_pointer_trace.
        by destruct (bool_decide _).
      + right. exists (seen e). split; [by left|].
        rewrite (run_reaching_tests e fs (or_introl Hpath)). cbn [final snd trace].
        destruct (setup_trace_no_access e) as (Hsetup & _).
        rewrite mem_accesses_of_app, Hsetup, !mem_accesses_of_test_trace.
        reflexivity. }
  destruct Hcases as [-> | (o & Hmapped & ->)].
  - repeat split; constructor.
  - rewrite mem_accesses_of_test_trace.
    split; [|split; [|done]];
      repeat (constructor; [cbn; unfold MAP_SIZE; lia|]); constructor.
Qed.

Lemma fixed_accesses_in_bounds_witness :
  mem_accesses_of (trace (final (run unmappable ∅))) = [].
Proof.
  apply (fixed_accesses_in_bounds unmappable ∅).
  intros [(Ho & _) | (_ & _ & _ & Hm)]; [cbn in Ho; lia | by apply Hm].
Defined.

(** X15.  The Fixed-Address Mapper never exits with 0 without having
    run the test sequence: its exit code is 0 or 1, and when it is 0 a
    mapping was established (through the device or through the
    simulation file), the test value and the four patterns were stored,
    and each of the four sweep offsets read back its pattern. *)
Theorem fixed_exit_zero_is_earned (e : env) (fs : gset string) :
  let r := run e fs in
  let t := trace (final r) in
  (exit_code r = 0 ∨ exit_code r = 1) ∧
  (exit_code r = 0 →
     mapped e ∧
     (∃ v0, stores_of t =
        [ (0, TEST_VALUE); (0, pattern 0); (1, pattern 1); (2, pattern 2);
          (3, pattern 3); (0, v0) ]) ∧
     (∃ v0 v, loads_of t =
        [ (0, v0); (0, v); (0, pattern 0); (1, pattern 1); (2, pattern 2);
          (3, pattern 3) ])).
Proof.
  cbv zeta.
  assert (Hmapped : mapped e ∨ exit_code (run e fs) = 1).
  { pose proof (run_by_path e) as Hpath. unfold path_of in Hpath.
    destruct (uses_file e).
    - destruct (_ || _ || _); [right | left; by right].
      destruct Hpath as [Hun Hfailed].
      by destruct (run_file_failed e fs Hun Hfailed) as (rest & w & -> & _).
    - destruct (target_ptr e =? MAP_FAILED); [right | left; by left].
      by rewrite (run_bad_pointer e fs Hpath). }
  destruct Hmapped as [Hmapped | Hone]; [|split; [by right | lia]].
  rewrite (run_reaching_tests e fs Hmapped).
  cbn [final snd trace exit_code fst].
  rewrite stores_of_app, loads_of_app, stores_of_test_trace, loads_of_test_trace.
  destruct (setup_trace_no_access e) as (_ & -> & ->).
  destruct (sweep_ok (in_sweep (seen e))) eqn:Hs; [|split; [by right | done]].
  split; [by left|]. intros _. split; [exact Hmapped|].
  apply sweep_ok_spec in Hs as (-> & -> & -> & ->).
  split; [by eexists | by eexists _, _].
Qed.

Lemma fixed_exit_zero_is_earned_witness :
  mapped unprivileged.
Proof.
  apply (fixed_exit_zero_is_earned unprivileged ∅). vm_compute. reflexivity.
Defined.

End ShmRwFixedAddrMore.
